(** * nodefling: typed exceptions, status registry and error utilities

    A shallow embedding of the library's core:
    - [constants/status-codes.ts]  (the status registry),
    - [exceptions/base-exception.ts] and the three families of variants,
    - [utils/error-utils.ts]       (classification, retry driver, validation).

    The numbers the code is given are integers ([Z]): status codes, attempt
    counters, millisecond delays.  What the code computes from them in
    double precision is a [Number], with its infinities and its NaN.
    Strings are [string].  JavaScript objects that the code shares and
    mutates ([details], [context], the argument of [validateRequiredFields])
    are plain objects: they live in an explicit heap, which holds their own
    properties, and are named by their location, so that aliasing is
    visible; what they inherit, they inherit from [Object.prototype]. *)

From Stdlib Require Import ZArith Ascii String List Bool Lia Sorted.
From stdpp Require Import base option list gmap strings fin_maps pretty.

Local Open Scope string_scope.
Local Open Scope list_scope.
Local Open Scope Z_scope.

(** ** JavaScript values and the object heap *)

Definition loc := positive.

(** A JavaScript value: the primitives, a reference to a heap object, or
    an object of the engine itself, named by the path that leads to it
    ([Object.prototype.toString], say). *)
Inductive JsVal : Type :=
  | JUndefined
  | JNull
  | JBool (b : bool)
  | JNum (n : Z)
  | JStr (s : string)
  | JRef (l : loc)
  | JNative (path : string).

#[global] Instance JsVal_eq_dec : EqDecision JsVal.
Proof. solve_decision. Defined.

(** ToBoolean.  Every object reference is truthy, the empty object too. *)
Definition truthy (v : JsVal) : bool :=
  match v with
  | JUndefined | JNull => false
  | JBool b => b
  | JNum n => negb (n =? 0)
  | JStr s => negb (String.eqb s "")
  | JRef _ | JNative _ => true
  end.

(** A plain object: its own string-keyed properties. *)
Abbreviation JsObject := (gmap string JsVal).
Abbreviation Heap := (gmap loc JsObject).

(** The own property names of [Object.prototype], the prototype of every
    plain object. *)
Definition Object_prototype : list string :=
  [ "constructor"; "__defineGetter__"; "__defineSetter__"; "hasOwnProperty";
    "__lookupGetter__"; "__lookupSetter__"; "isPrototypeOf";
    "propertyIsEnumerable"; "toString"; "valueOf"; "__proto__";
    "toLocaleString" ].

(** What a plain object reads under [key] when it has no own property of
    that name: the member of [Object.prototype], the prototype itself for
    the accessor [__proto__], and [undefined] for every other name. *)
Definition inherited (key : string) : JsVal :=
  if bool_decide (key = "__proto__") then JNative "Object.prototype"
  else if bool_decide (key ∈ Object_prototype)
       then JNative ("Object.prototype." +:+ key)
       else JUndefined.

(** [obj[key]]: the own property, else what the prototype chain gives. *)
Definition get_prop (o : JsObject) (key : string) : JsVal :=
  match o !! key with
  | Some v => v
  | None => inherited key
  end.

(** [{ ... }]: an object literal is a new object at a location not yet in use. *)
Definition alloc (o : JsObject) (h : Heap) : loc * Heap :=
  let l := fresh (dom h) in (l, <[l := o]> h).

(** [obj[key] = value] on the properties of a plain object.  The write
    makes or updates an own property, except under [__proto__] on an object
    that has no own property of that name: there it reaches the setter of
    [Object.prototype], which stores no property (it replaces the prototype
    when [value] is an object or [null]; the heap keeps own properties and
    does not record that). *)
Definition write (key : string) (value : JsVal) (o : JsObject) : JsObject :=
  if bool_decide (key = "__proto__" ∧ o !! "__proto__" = None) then o
  else <[key := value]> o.

(** [ref[key] = value] on the object that [ref] names. *)
Definition set_prop (l : loc) (key : string) (value : JsVal) (h : Heap) : Heap :=
  alter (write key value) l h.

(** The properties of the object at [l]. *)
Definition deref (h : Heap) (l : loc) : JsObject := default ∅ (h !! l).

(** ** Status registry ([constants/status-codes.ts]) *)

Module StatusCodes.
Definition BAD_REQUEST : Z := 400.
Definition UNAUTHORIZED : Z := 401.
Definition FORBIDDEN : Z := 403.
Definition NOT_FOUND : Z := 404.
Definition METHOD_NOT_ALLOWED : Z := 405.
Definition CONFLICT : Z := 409.
Definition UNPROCESSABLE_ENTITY : Z := 422.
Definition TOO_MANY_REQUESTS : Z := 429.
Definition INTERNAL_SERVER_ERROR : Z := 500.
Definition SERVICE_UNAVAILABLE : Z := 503.
Definition GATEWAY_TIMEOUT : Z := 504.
End StatusCodes.

(** The keys of [StatusCodeCategories]. *)
Inductive Category : Type :=
  | INFORMATIONAL | SUCCESS | REDIRECTION | CLIENT_ERROR | SERVER_ERROR.

#[global] Instance Category_eq_dec : EqDecision Category.
Proof. solve_decision. Defined.

(** [StatusCodeCategories], in the order [Object.entries] enumerates it. *)
Definition StatusCodeCategories : list (Category * list Z) :=
  [ (INFORMATIONAL, [100; 101; 102; 103]);
    (SUCCESS, [200; 201; 202; 203; 204; 205; 206; 207; 208; 226]);
    (REDIRECTION, [300; 301; 302; 303; 304; 305; 307; 308]);
    (CLIENT_ERROR, [400; 401; 402; 403; 404; 405; 406; 407; 408; 409; 410;
                    411; 412; 413; 414; 415; 416; 417; 418; 421; 422; 423;
                    424; 425; 426; 428; 429; 431; 451]);
    (SERVER_ERROR, [500; 501; 502; 503; 504; 505; 506; 507; 508; 510; 511]) ].

(** [Array.prototype.includes] on a list of numbers. *)
Definition includes_num (codes : list Z) (statusCode : Z) : bool :=
  existsb (Z.eqb statusCode) codes.

(** [StatusCodeCategories[category]]. *)
Fixpoint codes_of (table : list (Category * list Z)) (category : Category) : list Z :=
  match table with
  | [] => []
  | (c, codes) :: rest => if decide (c = category) then codes else codes_of rest category
  end.

Definition isStatusCodeCategory (statusCode : Z) (category : Category) : bool :=
  includes_num (codes_of StatusCodeCategories category) statusCode.

(** The [for ... of Object.entries(...)] loop: the first entry that has the code. *)
Fixpoint first_category (table : list (Category * list Z)) (statusCode : Z) : option Category :=
  match table with
  | [] => None
  | (category, codes) :: rest =>
      if includes_num codes statusCode then Some category
      else first_category rest statusCode
  end.

Definition getStatusCodeCategory (statusCode : Z) : option Category :=
  first_category StatusCodeCategories statusCode.

(** [StatusMessages[code] || 'Unknown Error']. *)
Definition StatusMessages (statusCode : Z) : option string :=
  if statusCode =? 200 then Some "OK"
  else if statusCode =? 201 then Some "Created"
  else if statusCode =? 400 then Some "Bad Request"
  else if statusCode =? 401 then Some "Unauthorized"
  else if statusCode =? 403 then Some "Forbidden"
  else if statusCode =? 404 then Some "Not Found"
  else if statusCode =? 500 then Some "Internal Server Error"
  else if statusCode =? 503 then Some "Service Unavailable"
  else if statusCode =? 409 then Some "Conflict"
  else if statusCode =? 422 then Some "Unprocessable Entity"
  else if statusCode =? 429 then Some "Too Many Requests"
  else None.

(** ** Exception model ([exceptions/base-exception.ts]) *)

Inductive LogLevel : Type := LogError | LogWarn | LogInfo | LogDebug.

#[global] Instance LogLevel_eq_dec : EqDecision LogLevel.
Proof. solve_decision. Defined.

(** [ExceptionOptions]: every field optional.  [None] is a key that is not
    there, [Some None] a key that is there and holds [undefined] (which the
    declared type rules out and the engine lets through), [Some (Some v)] a
    key that holds [v].  [details], [context] and [cause] are references to
    objects of the caller; [timestamp] is a [Date], kept as its epoch
    milliseconds. *)
Module Opt.
Record ExceptionOptions : Type := {
  message : option (option string);
  statusCode : option (option Z);
  code : option (option string);
  details : option (option loc);
  cause : option (option loc);
  timestamp : option (option Z);
  requestId : option (option string);
  userId : option (option string);
  context : option (option loc);
  isOperational : option (option bool);
  retryable : option (option bool);
  logLevel : option (option LogLevel)
}.

(** [{}] *)
Definition empty : ExceptionOptions :=
  {| message := None; statusCode := None; code := None; details := None;
     cause := None; timestamp := None; requestId := None; userId := None;
     context := None; isOperational := None; retryable := None;
     logLevel := None |}.
End Opt.
Export Opt (ExceptionOptions).

(** One property of [{ ...literal, ...options }]: the later spread wins
    where it has the key, whatever the key holds. *)
Definition or_else {A : Type} (later earlier : option A) : option A :=
  match later with
  | Some v => Some v
  | None => earlier
  end.

(** [{ ...literal, ...options }] *)
Definition spread (literal options : ExceptionOptions) : ExceptionOptions :=
  {| Opt.message := or_else (Opt.message options) (Opt.message literal);
     Opt.statusCode := or_else (Opt.statusCode options) (Opt.statusCode literal);
     Opt.code := or_else (Opt.code options) (Opt.code literal);
     Opt.details := or_else (Opt.details options) (Opt.details literal);
     Opt.cause := or_else (Opt.cause options) (Opt.cause literal);
     Opt.timestamp := or_else (Opt.timestamp options) (Opt.timestamp literal);
     Opt.requestId := or_else (Opt.requestId options) (Opt.requestId literal);
     Opt.userId := or_else (Opt.userId options) (Opt.userId literal);
     Opt.context := or_else (Opt.context options) (Opt.context literal);
     Opt.isOperational := or_else (Opt.isOperational options) (Opt.isOperational literal);
     Opt.retryable := or_else (Opt.retryable options) (Opt.retryable literal);
     Opt.logLevel := or_else (Opt.logLevel options) (Opt.logLevel literal) |}.

(** The fields of a [BaseException].  [details] and [context] hold object
    references: the record does not copy the objects it is given. *)
Record BaseException : Type := {
  name : string;
  message : string;
  statusCode : Z;
  code : string;
  details : loc;
  timestamp : Z;
  requestId : option string;
  userId : option string;
  context : loc;
  isOperational : bool;
  retryable : bool;
  logLevel : LogLevel;
  cause : option loc;
  stack : option string
}.

(** What the engine supplies at construction: [new Date()] and the
    captured stack trace. *)
Record Ambient : Type := { now : Z; captured : option string }.

(** What a destructuring pattern reads under a key: the value it holds,
    [undefined] when the key is not there. *)
Definition read {A : Type} (field : option (option A)) : option A :=
  match field with
  | Some value => value
  | None => None
  end.

(** The destructuring default [x = d]: it stands in for [undefined]. *)
Definition or_default {A : Type} (d : A) (field : option (option A)) : A :=
  default d (read field).

(** The destructuring default [x = {}]: a fresh empty object. *)
Definition or_fresh (field : option (option loc)) (h : Heap) : loc * Heap :=
  match read field with
  | Some l => (l, h)
  | None => alloc ∅ h
  end.

(** [BaseException.constructor], called from the class named [className]. *)
Definition new_BaseException (className : string) (options : ExceptionOptions)
    (env : Ambient) (h : Heap) : BaseException * Heap :=
  let message := or_default "An error occurred" (Opt.message options) in
  let statusCode :=
    or_default StatusCodes.INTERNAL_SERVER_ERROR (Opt.statusCode options) in
  let code := or_default "INTERNAL_ERROR" (Opt.code options) in
  let '(details, h) := or_fresh (Opt.details options) h in
  let cause := read (Opt.cause options) in
  let timestamp := or_default (now env) (Opt.timestamp options) in
  let requestId := read (Opt.requestId options) in
  let userId := read (Opt.userId options) in
  let '(context, h) := or_fresh (Opt.context options) h in
  let isOperational := or_default true (Opt.isOperational options) in
  let retryable := or_default false (Opt.retryable options) in
  let logLevel := or_default LogError (Opt.logLevel options) in
  ({| name := className; message := message; statusCode := statusCode;
      code := code; details := details; timestamp := timestamp;
      requestId := requestId; userId := userId; context := context;
      isOperational := isOperational; retryable := retryable;
      logLevel := logLevel; cause := cause; stack := captured env |}, h).

(** ** The variants ([http-], [business-], [database-exceptions.ts]) *)

(** The 34 exported classes with their positional constructor arguments,
    and [TestException], the bare subclass of the test-suite that hands its
    options to [super] as they are. *)
Inductive Variant : Type :=
  (* http-exceptions.ts *)
  | BadRequestException
  | UnauthorizedException
  | ForbiddenException
  | NotFoundException
  | MethodNotAllowedException
  | ConflictException
  | UnprocessableEntityException
  | TooManyRequestsException
  | InternalServerErrorException
  | ServiceUnavailableException
  | GatewayTimeoutException
  (* business-exceptions.ts *)
  | ValidationException
  | AuthenticationException
  | AuthorizationException
  | ResourceNotFoundException (resourceType resourceId : string)
  | DuplicateResourceException (resourceType field value : string)
  | InsufficientPermissionsException (requiredPermission : string)
  | RateLimitExceededException (limit : Z) (window : string)
  | BusinessRuleViolationException (rule : string) (details : option JsObject)
  | DataIntegrityException (constraint : string)
  | ConfigurationException (configKey : string)
  | FeatureNotAvailableException (feature : string)
  | MaintenanceModeException (estimatedDuration : option string)
  (* database-exceptions.ts *)
  | DatabaseConnectionException (database : string)
  | DatabaseQueryException (query : string)
  | DatabaseTransactionException (operation : string)
  | DatabaseConstraintException (constraint table : string)
  | ExternalServiceException (service endpoint : string)
  | ExternalServiceTimeoutException (service : string) (timeout : Z)
  | ExternalServiceUnavailableException (service : string)
  | CacheException (operation : string) (key : option string)
  | FileSystemException (operation path : string)
  | NetworkException (operation url : string)
  | ThirdPartyAPIException (api endpoint : string) (statusCode : option Z)
  (* __tests__/exceptions.test.ts *)
  | TestException.

(** [this.constructor.name] *)
Definition class_name (v : Variant) : string :=
  match v with
  | BadRequestException => "BadRequestException"
  | UnauthorizedException => "UnauthorizedException"
  | ForbiddenException => "ForbiddenException"
  | NotFoundException => "NotFoundException"
  | MethodNotAllowedException => "MethodNotAllowedException"
  | ConflictException => "ConflictException"
  | UnprocessableEntityException => "UnprocessableEntityException"
  | TooManyRequestsException => "TooManyRequestsException"
  | InternalServerErrorException => "InternalServerErrorException"
  | ServiceUnavailableException => "ServiceUnavailableException"
  | GatewayTimeoutException => "GatewayTimeoutException"
  | ValidationException => "ValidationException"
  | AuthenticationException => "AuthenticationException"
  | AuthorizationException => "AuthorizationException"
  | ResourceNotFoundException _ _ => "ResourceNotFoundException"
  | DuplicateResourceException _ _ _ => "DuplicateResourceException"
  | InsufficientPermissionsException _ => "InsufficientPermissionsException"
  | RateLimitExceededException _ _ => "RateLimitExceededException"
  | BusinessRuleViolationException _ _ => "BusinessRuleViolationException"
  | DataIntegrityException _ => "DataIntegrityException"
  | ConfigurationException _ => "ConfigurationException"
  | FeatureNotAvailableException _ => "FeatureNotAvailableException"
  | MaintenanceModeException _ => "MaintenanceModeException"
  | DatabaseConnectionException _ => "DatabaseConnectionException"
  | DatabaseQueryException _ => "DatabaseQueryException"
  | DatabaseTransactionException _ => "DatabaseTransactionException"
  | DatabaseConstraintException _ _ => "DatabaseConstraintException"
  | ExternalServiceException _ _ => "ExternalServiceException"
  | ExternalServiceTimeoutException _ _ => "ExternalServiceTimeoutException"
  | ExternalServiceUnavailableException _ => "ExternalServiceUnavailableException"
  | CacheException _ _ => "CacheException"
  | FileSystemException _ _ => "FileSystemException"
  | NetworkException _ _ => "NetworkException"
  | ThirdPartyAPIException _ _ _ => "ThirdPartyAPIException"
  | TestException => "TestException"
  end.

(** The object literal a class writes in front of [...options].  Its
    [details] is itself a literal: the properties of an object still to be
    created. *)
Record Literal : Type := {
  lit_message : option string;
  lit_statusCode : option Z;
  lit_code : option string;
  lit_details : option JsObject;
  lit_retryable : option bool;
  lit_isOperational : option bool
}.

Definition literal (message : string) (statusCode : Z) (code : string)
    (details : option JsObject) (retryable isOperational : option bool) : Literal :=
  {| lit_message := Some message; lit_statusCode := Some statusCode;
     lit_code := Some code; lit_details := details;
     lit_retryable := retryable; lit_isOperational := isOperational |}.

(** An optional string argument as a property value. *)
Definition str_or_undefined (s : option string) : JsVal :=
  match s with Some s => JStr s | None => JUndefined end.

Definition num_or_undefined (n : option Z) : JsVal :=
  match n with Some n => JNum n | None => JUndefined end.

(** [statusCode || fallback] on an optional number. *)
Definition num_or (statusCode : option Z) (fallback : Z) : Z :=
  match statusCode with
  | Some n => if truthy (JNum n) then n else fallback
  | None => fallback
  end.

(** [{ rule, ...details }]: own properties of [details] win over [rule]. *)
Definition rule_details (rule : string) (details : option JsObject) : JsObject :=
  default ∅ details ∪ {[ "rule" := JStr rule ]}.

(** The literal of each class, as written in its constructor.  A number
    in a template string is printed with [pretty], digit by digit, as the
    engine prints every safe integer. *)
Definition variant_literal (v : Variant) : Literal :=
  match v with
  | BadRequestException =>
      literal "Bad Request" StatusCodes.BAD_REQUEST "BAD_REQUEST" None None None
  | UnauthorizedException =>
      literal "Unauthorized" StatusCodes.UNAUTHORIZED "UNAUTHORIZED" None None None
  | ForbiddenException =>
      literal "Forbidden" StatusCodes.FORBIDDEN "FORBIDDEN" None None None
  | NotFoundException =>
      literal "Not Found" StatusCodes.NOT_FOUND "NOT_FOUND" None None None
  | MethodNotAllowedException =>
      literal "Method Not Allowed" StatusCodes.METHOD_NOT_ALLOWED "METHOD_NOT_ALLOWED"
        None None None
  | ConflictException =>
      literal "Conflict" StatusCodes.CONFLICT "CONFLICT" None None None
  | UnprocessableEntityException =>
      literal "Unprocessable Entity" StatusCodes.UNPROCESSABLE_ENTITY
        "UNPROCESSABLE_ENTITY" None None None
  | TooManyRequestsException =>
      literal "Too Many Requests" StatusCodes.TOO_MANY_REQUESTS "TOO_MANY_REQUESTS"
        None (Some true) None
  | InternalServerErrorException =>
      literal "Internal Server Error" StatusCodes.INTERNAL_SERVER_ERROR
        "INTERNAL_SERVER_ERROR" None None (Some false)
  | ServiceUnavailableException =>
      literal "Service Unavailable" StatusCodes.SERVICE_UNAVAILABLE "SERVICE_UNAVAILABLE"
        None (Some true) (Some false)
  | GatewayTimeoutException =>
      literal "Gateway Timeout" StatusCodes.GATEWAY_TIMEOUT "GATEWAY_TIMEOUT"
        None (Some true) (Some false)
  | ValidationException =>
      literal "Validation Error" StatusCodes.UNPROCESSABLE_ENTITY "VALIDATION_ERROR"
        None None None
  | AuthenticationException =>
      literal "Authentication Failed" StatusCodes.UNAUTHORIZED "AUTHENTICATION_FAILED"
        None None None
  | AuthorizationException =>
      literal "Authorization Failed" StatusCodes.FORBIDDEN "AUTHORIZATION_FAILED"
        None None None
  | ResourceNotFoundException resourceType resourceId =>
      literal (resourceType +:+ " with id '" +:+ resourceId +:+ "' not found")
        StatusCodes.NOT_FOUND "RESOURCE_NOT_FOUND"
        (Some {[ "resourceType" := JStr resourceType; "resourceId" := JStr resourceId ]})
        None None
  | DuplicateResourceException resourceType field value =>
      literal (resourceType +:+ " with " +:+ field +:+ " '" +:+ value +:+ "' already exists")
        StatusCodes.CONFLICT "DUPLICATE_RESOURCE"
        (Some {[ "resourceType" := JStr resourceType; "field" := JStr field;
                 "value" := JStr value ]})
        None None
  | InsufficientPermissionsException requiredPermission =>
      literal ("Insufficient permissions. Required: " +:+ requiredPermission)
        StatusCodes.FORBIDDEN "INSUFFICIENT_PERMISSIONS"
        (Some {[ "requiredPermission" := JStr requiredPermission ]})
        None None
  | RateLimitExceededException limit window =>
      literal ("Rate limit exceeded. Limit: " +:+ pretty limit +:+ " requests per " +:+ window)
        StatusCodes.TOO_MANY_REQUESTS "RATE_LIMIT_EXCEEDED"
        (Some {[ "limit" := JNum limit; "window" := JStr window ]})
        (Some true) None
  | BusinessRuleViolationException rule details =>
      literal ("Business rule violation: " +:+ rule)
        StatusCodes.UNPROCESSABLE_ENTITY "BUSINESS_RULE_VIOLATION"
        (Some (rule_details rule details))
        None None
  | DataIntegrityException constraint =>
      literal ("Data integrity constraint violated: " +:+ constraint)
        StatusCodes.CONFLICT "DATA_INTEGRITY_VIOLATION"
        (Some {[ "constraint" := JStr constraint ]})
        None None
  | ConfigurationException configKey =>
      literal ("Configuration error: " +:+ configKey)
        StatusCodes.INTERNAL_SERVER_ERROR "CONFIGURATION_ERROR"
        (Some {[ "configKey" := JStr configKey ]})
        None (Some false)
  | FeatureNotAvailableException feature =>
      literal ("Feature '" +:+ feature +:+ "' is not available")
        StatusCodes.SERVICE_UNAVAILABLE "FEATURE_NOT_AVAILABLE"
        (Some {[ "feature" := JStr feature ]})
        None None
  | MaintenanceModeException estimatedDuration =>
      literal "Service is currently under maintenance"
        StatusCodes.SERVICE_UNAVAILABLE "MAINTENANCE_MODE"
        (Some {[ "estimatedDuration" := str_or_undefined estimatedDuration ]})
        (Some true) None
  | DatabaseConnectionException database =>
      literal ("Database connection failed: " +:+ database)
        StatusCodes.SERVICE_UNAVAILABLE "DATABASE_CONNECTION_ERROR"
        (Some {[ "database" := JStr database ]})
        (Some true) (Some false)
  | DatabaseQueryException query =>
      literal "Database query failed"
        StatusCodes.INTERNAL_SERVER_ERROR "DATABASE_QUERY_ERROR"
        (Some {[ "query" := JStr query ]})
        None (Some false)
  | DatabaseTransactionException operation =>
      literal ("Database transaction failed: " +:+ operation)
        StatusCodes.INTERNAL_SERVER_ERROR "DATABASE_TRANSACTION_ERROR"
        (Some {[ "operation" := JStr operation ]})
        None (Some false)
  | DatabaseConstraintException constraint table =>
      literal ("Database constraint violated: " +:+ constraint)
        StatusCodes.CONFLICT "DATABASE_CONSTRAINT_VIOLATION"
        (Some {[ "constraint" := JStr constraint; "table" := JStr table ]})
        None None
  | ExternalServiceException service endpoint =>
      literal ("External service error: " +:+ service)
        StatusCodes.SERVICE_UNAVAILABLE "EXTERNAL_SERVICE_ERROR"
        (Some {[ "service" := JStr service; "endpoint" := JStr endpoint ]})
        (Some true) (Some false)
  | ExternalServiceTimeoutException service timeout =>
      literal ("External service timeout: " +:+ service)
        StatusCodes.GATEWAY_TIMEOUT "EXTERNAL_SERVICE_TIMEOUT"
        (Some {[ "service" := JStr service; "timeout" := JNum timeout ]})
        (Some true) (Some false)
  | ExternalServiceUnavailableException service =>
      literal ("External service unavailable: " +:+ service)
        StatusCodes.SERVICE_UNAVAILABLE "EXTERNAL_SERVICE_UNAVAILABLE"
        (Some {[ "service" := JStr service ]})
        (Some true) (Some false)
  | CacheException operation key =>
      literal ("Cache operation failed: " +:+ operation)
        StatusCodes.INTERNAL_SERVER_ERROR "CACHE_ERROR"
        (Some {[ "operation" := JStr operation; "key" := str_or_undefined key ]})
        (Some true) (Some false)
  | FileSystemException operation path =>
      literal ("File system operation failed: " +:+ operation)
        StatusCodes.INTERNAL_SERVER_ERROR "FILE_SYSTEM_ERROR"
        (Some {[ "operation" := JStr operation; "path" := JStr path ]})
        None (Some false)
  | NetworkException operation url =>
      literal ("Network operation failed: " +:+ operation)
        StatusCodes.SERVICE_UNAVAILABLE "NETWORK_ERROR"
        (Some {[ "operation" := JStr operation; "url" := JStr url ]})
        (Some true) (Some false)
  | ThirdPartyAPIException api endpoint statusCode =>
      literal ("Third-party API error: " +:+ api)
        (num_or statusCode StatusCodes.SERVICE_UNAVAILABLE) "THIRD_PARTY_API_ERROR"
        (Some {[ "api" := JStr api; "endpoint" := JStr endpoint;
                 "apiStatusCode" := num_or_undefined statusCode ]})
        (Some true) (Some false)
  | TestException =>
      {| lit_message := None; lit_statusCode := None; lit_code := None;
         lit_details := None; lit_retryable := None; lit_isOperational := None |}
  end.

(** A key of the literal with the value written for it. *)
Definition written {A : Type} (value : option A) : option (option A) :=
  match value with
  | Some v => Some (Some v)
  | None => None
  end.

(** Evaluating the literal: its [details], when written, becomes a new object. *)
Definition eval_literal (lit : Literal) (h : Heap) : ExceptionOptions * Heap :=
  let '(details, h) :=
    match lit_details lit with
    | Some o => let '(l, h) := alloc o h in (Some (Some l), h)
    | None => (None, h)
    end in
  ({| Opt.message := written (lit_message lit);
      Opt.statusCode := written (lit_statusCode lit);
      Opt.code := written (lit_code lit); Opt.details := details;
      Opt.cause := None; Opt.timestamp := None; Opt.requestId := None;
      Opt.userId := None; Opt.context := None;
      Opt.isOperational := written (lit_isOperational lit);
      Opt.retryable := written (lit_retryable lit); Opt.logLevel := None |}, h).

(** [new V(args..., options)]: [super({ ...literal, ...options })]. *)
Definition construct (v : Variant) (options : ExceptionOptions)
    (env : Ambient) (h : Heap) : BaseException * Heap :=
  let '(lit, h) := eval_literal (variant_literal v) h in
  new_BaseException (class_name v) (spread lit options) env h.

(** ** Methods of [BaseException] *)

(** The object [toJSON] returns; [timestamp] is the date [toISOString]
    prints, [details] and [context] are the record's own references. *)
Module Json.
Record t : Type := {
  name : string; message : string; statusCode : Z; code : string;
  details : loc; timestamp : Z; requestId : option string;
  userId : option string; context : loc; isOperational : bool;
  retryable : bool; logLevel : LogLevel; stack : option string
}.
End Json.

Definition toJSON (this : BaseException) : Json.t :=
  {| Json.name := name this; Json.message := message this;
     Json.statusCode := statusCode this; Json.code := code this;
     Json.details := details this; Json.timestamp := timestamp this;
     Json.requestId := requestId this; Json.userId := userId this;
     Json.context := context this; Json.isOperational := isOperational this;
     Json.retryable := retryable this; Json.logLevel := logLevel this;
     Json.stack := stack this |}.

(** The [error] object of [toResponse]; [None] is a key that was not set. *)
Module Response.
Record t : Type := {
  name : string; message : string; code : string; statusCode : Z;
  details : option loc; requestId : option string
}.
End Response.

(** [process.env.NODE_ENV === 'development'] *)
Definition is_development (NODE_ENV : option string) : bool :=
  bool_decide (NODE_ENV = Some "development").

(** [if (this.requestId)] on [string | undefined]. *)
Definition truthy_string (s : option string) : bool :=
  truthy (str_or_undefined s).

Definition toResponse (NODE_ENV : option string) (this : BaseException) : Response.t :=
  {| Response.name := name this; Response.message := message this;
     Response.code := code this; Response.statusCode := statusCode this;
     Response.details :=
       if is_development NODE_ENV || truthy (JRef (details this))
       then Some (details this) else None;
     Response.requestId :=
       if truthy_string (requestId this) then requestId this else None |}.

Definition isClientError (this : BaseException) : bool :=
  (statusCode this >=? 400) && (statusCode this <? 500).

Definition isServerError (this : BaseException) : bool :=
  (statusCode this >=? 500) && (statusCode this <? 600).

Definition isRetryable (this : BaseException) : bool := retryable this.

(** [this.context[key] = value; return this] *)
Definition addContext (key : string) (value : JsVal) (this : BaseException)
    (h : Heap) : BaseException * Heap :=
  (this, set_prop (context this) key value h).

(** [this.details[key] = value; return this] *)
Definition addDetail (key : string) (value : JsVal) (this : BaseException)
    (h : Heap) : BaseException * Heap :=
  (this, set_prop (details this) key value h).

Definition setRequestId (id : string) (this : BaseException) : BaseException :=
  {| name := name this; message := message this; statusCode := statusCode this;
     code := code this; details := details this; timestamp := timestamp this;
     requestId := Some id; userId := userId this; context := context this;
     isOperational := isOperational this; retryable := retryable this;
     logLevel := logLevel this; cause := cause this; stack := stack this |}.

Definition setUserId (id : string) (this : BaseException) : BaseException :=
  {| name := name this; message := message this; statusCode := statusCode this;
     code := code this; details := details this; timestamp := timestamp this;
     requestId := requestId this; userId := Some id; context := context this;
     isOperational := isOperational this; retryable := retryable this;
     logLevel := logLevel this; cause := cause this; stack := stack this |}.

Definition getStatusMessage (this : BaseException) : string :=
  default "Unknown Error" (StatusMessages (statusCode this)).

(** A call of any public method of the class, with its arguments. *)
Inductive Method : Type :=
  | Call_toJSON
  | Call_toResponse (NODE_ENV : option string)
  | Call_isClientError
  | Call_isServerError
  | Call_isRetryable
  | Call_addContext (key : string) (value : JsVal)
  | Call_addDetail (key : string) (value : JsVal)
  | Call_setRequestId (id : string)
  | Call_setUserId (id : string)
  | Call_getStatusMessage.

(** The receiver and the heap after the call.  The methods that only read
    leave both as they were. *)
Definition call (m : Method) (this : BaseException) (h : Heap) : BaseException * Heap :=
  match m with
  | Call_toJSON => let _ := toJSON this in (this, h)
  | Call_toResponse NODE_ENV => let _ := toResponse NODE_ENV this in (this, h)
  | Call_isClientError => let _ := isClientError this in (this, h)
  | Call_isServerError => let _ := isServerError this in (this, h)
  | Call_isRetryable => let _ := isRetryable this in (this, h)
  | Call_addContext key value => addContext key value this h
  | Call_addDetail key value => addDetail key value this h
  | Call_setRequestId id => (setRequestId id this, h)
  | Call_setUserId id => (setUserId id this, h)
  | Call_getStatusMessage => let _ := getStatusMessage this in (this, h)
  end.

(** ** Error utilities ([utils/error-utils.ts]) *)

(** An error the library does not own: an [Error]-like object, of which the
    utilities read [code], [message] and [stack]. *)
Module Foreign.
Record t : Type := {
  code : JsVal;
  message : option string;
  stack : option string
}.
End Foreign.

(** A caught or thrown error value: an exception of the library, or an
    object of somebody else.  ([null] and [undefined], of which no property
    can be read, are not error values.) *)
Inductive ErrorValue : Type :=
  | Modeled (e : BaseException)
  | Foreign (e : Foreign.t).

(** [error instanceof BaseException] *)
Definition isBaseException (error : ErrorValue) : bool :=
  match error with
  | Modeled _ => true
  | Foreign _ => false
  end.

(** [String.prototype.includes] *)
Fixpoint includes (s search : string) : bool :=
  String.prefix search s ||
  match s with
  | EmptyString => false
  | String _ rest => includes rest search
  end.

(** [s?.includes(code)]: [undefined], hence falsy, without a string. *)
Definition opt_includes (s : option string) (search : string) : bool :=
  match s with
  | Some s => includes s search
  | None => false
  end.

Definition retryableErrors : list string :=
  [ "ECONNRESET"; "ECONNREFUSED"; "ETIMEDOUT"; "ENOTFOUND"; "ENETUNREACH";
    "ECONNRESET"; "EPIPE"; "EAI_AGAIN" ].

Definition isRetryableError (error : ErrorValue) : bool :=
  match error with
  | Modeled e => isRetryable e
  | Foreign e =>
      existsb (fun code =>
                 bool_decide (Foreign.code e = JStr code)
                 || opt_includes (Foreign.message e) code
                 || opt_includes (Foreign.stack e) code)
              retryableErrors
  end.

(** [logLevels] of [shouldLogError]. *)
Definition logLevels (l : LogLevel) : Z :=
  match l with
  | LogError => 0
  | LogWarn => 1
  | LogInfo => 2
  | LogDebug => 3
  end.

Definition shouldLogError (error : ErrorValue) (level : LogLevel) : bool :=
  match error with
  | Modeled e =>
      let errorLogLevel := logLevel e in
      logLevels errorLogLevel <=? logLevels level
  | Foreign _ => bool_decide (level = LogError)
  end.

(** How a call ends: with a value, with a thrown error, or, for the
    driver's last statement, with [throw] of a variable never assigned. *)
Inductive Completion (A : Type) : Type :=
  | Return (a : A)
  | Throw (e : ErrorValue)
  | ThrowUndefined.
Arguments Return {A} a.
Arguments Throw {A} e.
Arguments ThrowUndefined {A}.

(** [new Error(message)] *)
Definition new_Error (message : string) (env : Ambient) : Foreign.t :=
  {| Foreign.code := JUndefined; Foreign.message := Some message;
     Foreign.stack := captured env |}.

(** [Array.prototype.join] *)
Fixpoint join (sep : string) (l : list string) : string :=
  match l with
  | [] => ""
  | [x] => x
  | x :: rest => x +:+ sep +:+ join sep rest
  end.

(** The predicate of the [filter] in [validateRequiredFields]. *)
Definition is_missing (obj : JsObject) (field : string) : bool :=
  bool_decide (get_prop obj field = JUndefined)
  || bool_decide (get_prop obj field = JNull)
  || bool_decide (get_prop obj field = JStr "").

(** [validateRequiredFields(obj, requiredFields)], [obj] a reference.  The
    heap is threaded like everywhere else. *)
Definition validateRequiredFields (obj : loc) (requiredFields : list string)
    (env : Ambient) (h : Heap) : Completion unit * Heap :=
  let missingFields := List.filter (is_missing (deref h obj)) requiredFields in
  if (Z.of_nat (length missingFields) >? 0) then
    (Throw (Foreign (new_Error ("Missing required fields: " +:+ join ", " missingFields) env)), h)
  else (Return tt, h).

(** ** Double-precision arithmetic of the retry driver *)

(** A number as the engine has it.  The driver computes with integers, so
    its finite results are integers; the others are the infinities and NaN. *)
Inductive Number : Type :=
  | Finite (n : Z)
  | PosInfinity
  | NegInfinity
  | NaN.

#[global] Instance Number_eq_dec : EqDecision Number.
Proof. solve_decision. Defined.

(** The doubles end below [2^1024]: an integer product that leaves the
    range is an infinity. *)
Definition double_limit : Z := 2 ^ 1024.

Definition to_double (x : Z) : Number :=
  if double_limit <=? x then PosInfinity
  else if x <=? - double_limit then NegInfinity
  else Finite x.

(** [Math.pow(2, exponent)] for a counter [exponent = 0, 1, 2, ...]. *)
Definition Math_pow2 (exponent : Z) : Number :=
  if exponent <? 1024 then Finite (2 ^ exponent) else PosInfinity.

(** [x * y], [x] an integer. *)
Definition times (x : Z) (y : Number) : Number :=
  match y with
  | Finite n => to_double (x * n)
  | PosInfinity =>
      if 0 <? x then PosInfinity else if x <? 0 then NegInfinity else NaN
  | NegInfinity =>
      if 0 <? x then NegInfinity else if x <? 0 then PosInfinity else NaN
  | NaN => NaN
  end.

(** [Math.min(x, bound)], [bound] an integer. *)
Definition Math_min (x : Number) (bound : Z) : Number :=
  match x with
  | Finite n => Finite (Z.min n bound)
  | PosInfinity => Finite bound
  | NegInfinity => NegInfinity
  | NaN => NaN
  end.

(** ** The retry driver *)

Section Retry.
(** The operation: any computation over a state of its own that resolves
    with a value or rejects with an error. *)
Context {St T : Type}.

Inductive Outcome : Type :=
  | Resolved (v : T)
  | Rejected (e : ErrorValue).

Variable fn : St -> Outcome * St.

(** What the driver does, as seen from outside, in order: it calls the
    operation, and it arms a timer with the delay it computed. *)
Inductive Event : Type :=
  | Attempt (o : Outcome)
  | Sleep (ms : Number).

Variables maxRetries baseDelay maxDelay : Z.

(** The [for] loop from [attempt] on.  [fuel] bounds the number of times
    the loop test is evaluated; [None] is a loop that needs more. *)
Fixpoint retry_loop (fuel : nat) (attempt : Z) (lastError : option ErrorValue)
    (s : St) : option (Completion T * St * list Event) :=
  match fuel with
  | O => None
  | S fuel =>
      if attempt <=? maxRetries then
        match fn s with
        | (Resolved v, s) => Some (Return v, s, [Attempt (Resolved v)])
        | (Rejected error, s) =>
            let lastError := Some error in
            if (attempt =? maxRetries) || negb (isRetryableError error) then
              Some (Throw error, s, [Attempt (Rejected error)])
            else
              let delay := Math_min (times baseDelay (Math_pow2 attempt)) maxDelay in
              match retry_loop fuel (attempt + 1) lastError s with
              | Some (c, s, events) =>
                  Some (c, s, Attempt (Rejected error) :: Sleep delay :: events)
              | None => None
              end
        end
      else
        Some (match lastError with
              | Some e => Throw e
              | None => ThrowUndefined
              end, s, [])
  end.

(** The loop test runs once per attempt and once more to leave. *)
Definition retryWithBackoff (s : St) : option (Completion T * St * list Event) :=
  retry_loop (S (Z.to_nat (maxRetries + 1))) 0 None s.
End Retry.

Arguments Resolved {T} v.
Arguments Rejected {T} e.
Arguments Attempt {T} o.
Arguments Sleep {T} ms.

(** ** The rest of the registry and of the utilities *)

(** [StatusCodes], every entry, in the order written. *)
Definition StatusCodes_all : list (string * Z) :=
  [ ("CONTINUE", 100); ("SWITCHING_PROTOCOLS", 101); ("PROCESSING", 102);
    ("EARLY_HINTS", 103);
    ("OK", 200); ("CREATED", 201); ("ACCEPTED", 202);
    ("NON_AUTHORITATIVE_INFORMATION", 203); ("NO_CONTENT", 204);
    ("RESET_CONTENT", 205); ("PARTIAL_CONTENT", 206); ("MULTI_STATUS", 207);
    ("ALREADY_REPORTED", 208); ("IM_USED", 226);
    ("MULTIPLE_CHOICES", 300); ("MOVED_PERMANENTLY", 301); ("FOUND", 302);
    ("SEE_OTHER", 303); ("NOT_MODIFIED", 304); ("USE_PROXY", 305);
    ("TEMPORARY_REDIRECT", 307); ("PERMANENT_REDIRECT", 308);
    ("BAD_REQUEST", 400); ("UNAUTHORIZED", 401); ("PAYMENT_REQUIRED", 402);
    ("FORBIDDEN", 403); ("NOT_FOUND", 404); ("METHOD_NOT_ALLOWED", 405);
    ("NOT_ACCEPTABLE", 406); ("PROXY_AUTHENTICATION_REQUIRED", 407);
    ("REQUEST_TIMEOUT", 408); ("CONFLICT", 409); ("GONE", 410);
    ("LENGTH_REQUIRED", 411); ("PRECONDITION_FAILED", 412);
    ("PAYLOAD_TOO_LARGE", 413); ("URI_TOO_LONG", 414);
    ("UNSUPPORTED_MEDIA_TYPE", 415); ("RANGE_NOT_SATISFIABLE", 416);
    ("EXPECTATION_FAILED", 417); ("IM_A_TEAPOT", 418);
    ("MISDIRECTED_REQUEST", 421); ("UNPROCESSABLE_ENTITY", 422); ("LOCKED", 423);
    ("FAILED_DEPENDENCY", 424); ("TOO_EARLY", 425); ("UPGRADE_REQUIRED", 426);
    ("PRECONDITION_REQUIRED", 428); ("TOO_MANY_REQUESTS", 429);
    ("REQUEST_HEADER_FIELDS_TOO_LARGE", 431);
    ("UNAVAILABLE_FOR_LEGAL_REASONS", 451);
    ("INTERNAL_SERVER_ERROR", 500); ("NOT_IMPLEMENTED", 501); ("BAD_GATEWAY", 502);
    ("SERVICE_UNAVAILABLE", 503); ("GATEWAY_TIMEOUT", 504);
    ("HTTP_VERSION_NOT_SUPPORTED", 505); ("VARIANT_ALSO_NEGOTIATES", 506);
    ("INSUFFICIENT_STORAGE", 507); ("LOOP_DETECTED", 508); ("NOT_EXTENDED", 510);
    ("NETWORK_AUTHENTICATION_REQUIRED", 511) ].

(** [(this as any).requestId = requestId] with the argument as the
    middleware passes it: a string, or [undefined]. *)
Definition assign_requestId (requestId : option string) (this : BaseException)
    : BaseException :=
  {| name := name this; message := message this; statusCode := statusCode this;
     code := code this; details := details this; timestamp := timestamp this;
     requestId := requestId; userId := userId this; context := context this;
     isOperational := isOperational this; retryable := retryable this;
     logLevel := logLevel this; cause := cause this; stack := stack this |}.

Definition isOperationalError (error : ErrorValue) : bool :=
  match error with
  | Modeled e => isOperational e
  | Foreign e =>
      negb (opt_includes (Foreign.stack e) "TypeError")
      && negb (opt_includes (Foreign.stack e) "ReferenceError")
      && negb (opt_includes (Foreign.stack e) "SyntaxError")
  end.

(** A foreign error with the two further properties that the response
    utilities read off it. *)
Module Plain.
Record t : Type := {
  error : Foreign.t;
  name : option string;
  statusCode : JsVal
}.
End Plain.

(** An error as the response utilities and the middleware see it. *)
Inductive Caught : Type :=
  | Own (e : BaseException)
  | Alien (e : Plain.t).

(** The same error as the classification utilities see it. *)
Definition error_value (error : Caught) : ErrorValue :=
  match error with
  | Own e => Modeled e
  | Alien e => Foreign (Plain.error e)
  end.

(** [s || fallback] on [string | undefined] *)
Definition string_or (s : option string) (fallback : string) : string :=
  match s with
  | Some s => if truthy (JStr s) then s else fallback
  | None => fallback
  end.

(** [v || fallback] *)
Definition value_or (v fallback : JsVal) : JsVal :=
  if truthy v then v else fallback.

(** The [error] object of [createErrorResponse]; [None] is a key that is
    not there, [stack := Some None] the key [stack] holding [undefined]. *)
Module ErrorResponse.
Record t : Type := {
  name : string;
  message : string;
  code : option string;
  statusCode : JsVal;
  details : option loc;
  requestId : option string;
  stack : option (option string)
}.
End ErrorResponse.

Definition createErrorResponse (error : Caught) (includeStack : bool)
    (NODE_ENV : option string) : ErrorResponse.t :=
  match error with
  | Own e =>
      let response := toResponse NODE_ENV e in
      {| ErrorResponse.name := Response.name response;
         ErrorResponse.message := Response.message response;
         ErrorResponse.code := Some (Response.code response);
         ErrorResponse.statusCode := JNum (Response.statusCode response);
         ErrorResponse.details := Response.details response;
         ErrorResponse.requestId := Response.requestId response;
         ErrorResponse.stack :=
           if includeStack && is_development NODE_ENV then Some (stack e) else None |}
  | Alien e =>
      let statusCode :=
        value_or (Plain.statusCode e) (JNum StatusCodes.INTERNAL_SERVER_ERROR) in
      {| ErrorResponse.name := string_or (Plain.name e) "Error";
         ErrorResponse.message :=
           string_or (Foreign.message (Plain.error e)) "Internal Server Error";
         ErrorResponse.code := None;
         ErrorResponse.statusCode := statusCode;
         ErrorResponse.details := None;
         ErrorResponse.requestId := None;
         ErrorResponse.stack :=
           if includeStack && is_development NODE_ENV
           then Some (Foreign.stack (Plain.error e)) else None |}
  end.

(** What [errorHandler] reads off the request: [req.url], [req.method],
    [req.ip], [req.get('User-Agent')], [req.requestId] and [req.user?.id]. *)
Module Request.
Record t : Type := {
  url : string;
  method : string;
  ip : string;
  userAgent : option string;
  requestId : option string;
  userId : option string
}.
End Request.

(** What [errorHandler] leaves behind: the error and the heap after the
    enrichment, whether it wrote a line with [console.error], and the
    status and body it sent. *)
Module Handled.
Record t : Type := {
  error : Caught;
  heap : Heap;
  logged : bool;
  status : JsVal;
  body : ErrorResponse.t
}.
End Handled.

(** The first block of [errorHandler], on an exception of the library. *)
Definition enrich (req : Request.t) (e : BaseException) (h : Heap)
    : BaseException * Heap :=
  let e := assign_requestId (Request.requestId req) e in
  let e := match Request.userId req with
           | Some id => if truthy (JStr id) then setUserId id e else e
           | None => e
           end in
  let '(e, h) := addContext "url" (JStr (Request.url req)) e h in
  let '(e, h) := addContext "method" (JStr (Request.method req)) e h in
  let '(e, h) := addContext "ip" (JStr (Request.ip req)) e h in
  addContext "userAgent" (str_or_undefined (Request.userAgent req)) e h.

Definition errorHandler (error : Caught) (req : Request.t)
    (NODE_ENV : option string) (h : Heap) : Handled.t :=
  let '(error, h) :=
    match error with
    | Own e => let '(e, h) := enrich req e h in (Own e, h)
    | Alien _ => (error, h)
    end in
  let logged := shouldLogError (error_value error) LogError in
  let errorResponse := createErrorResponse error (is_development NODE_ENV) NODE_ENV in
  let statusCode :=
    match error with
    | Own e => JNum (statusCode e)
    | Alien e => value_or (Plain.statusCode e) (JNum 500)
    end in
  {| Handled.error := error; Handled.heap := h; Handled.logged := logged;
     Handled.status := statusCode; Handled.body := errorResponse |}.

Section Wrapping.
Context {St T : Type}.

(** The wrapped function, and the optional handler: what it throws, or
    [None] when it returns, with the state it leaves. *)
Variable fn : St → @Outcome T * St.
Variable handler : option (ErrorValue → St → option ErrorValue * St).

(** The function that [withErrorHandling] returns. *)
Definition withErrorHandling (s : St) : Completion T * St :=
  match fn s with
  | (Resolved result, s) => (Return result, s)
  | (Rejected error, s) =>
      match handler with
      | Some errorHandler =>
          match errorHandler error s with
          | (Some thrown, s) => (Throw thrown, s)
          | (None, s) => (Throw error, s)
          end
      | None => (Throw error, s)
      end
  end.
End Wrapping.

(** [error.message], on either kind of error. *)
Definition message_of (error : Caught) : option string :=
  match error with
  | Own e => Some (message e)
  | Alien e => Foreign.message (Plain.error e)
  end.

(** [const e = new Error(message); e.statusCode = statusCode]: its [name]
    is the one of [Error.prototype]. *)
Definition plain_error (message : string) (statusCode : Z) (env : Ambient) : Caught :=
  Alien {| Plain.error := new_Error message env; Plain.name := Some "Error";
           Plain.statusCode := JNum statusCode |}.

(** [corsErrorHandler]: the error it hands to [next]. *)
Definition corsErrorHandler (error : Caught) (env : Ambient) : Caught :=
  if opt_includes (message_of error) "CORS"
  then plain_error "CORS policy violation" 403 env
  else error.

(** [rateLimitErrorHandler]: the error it hands to [next]. *)
Definition rateLimitErrorHandler (error : Caught) (env : Ambient) : Caught :=
  if opt_includes (message_of error) "rate limit"
  then plain_error "Too many requests" 429 env
  else error.

(** ** Regular expressions and [validateEmail] *)

(** The patterns the library tests strings with: classes of characters,
    sequence, alternative and repetition.  A character is a code unit below
    256. *)
Inductive Regex : Type :=
  | Never
  | Empty
  | Class (accepts : Ascii.ascii → bool)
  | Then (r1 r2 : Regex)
  | Or (r1 r2 : Regex)
  | Many (r : Regex).

(** [r+] *)
Definition Several (r : Regex) : Regex := Then r (Many r).

(** Does [r] match the empty string? *)
Fixpoint nullable (r : Regex) : bool :=
  match r with
  | Never => false
  | Empty => true
  | Class _ => false
  | Then r1 r2 => nullable r1 && nullable r2
  | Or r1 r2 => nullable r1 || nullable r2
  | Many _ => true
  end.

(** What is left of [r] to match once [a] is read. *)
Fixpoint derive (a : Ascii.ascii) (r : Regex) : Regex :=
  match r with
  | Never => Never
  | Empty => Never
  | Class accepts => if accepts a then Empty else Never
  | Then r1 r2 =>
      if nullable r1 then Or (Then (derive a r1) r2) (derive a r2)
      else Then (derive a r1) r2
  | Or r1 r2 => Or (derive a r1) (derive a r2)
  | Many r => Then (derive a r) (Many r)
  end.

(** [/^r$/.test(s)] *)
Fixpoint test (r : Regex) (s : list Ascii.ascii) : bool :=
  match s with
  | [] => nullable r
  | a :: s => test (derive a r) s
  end.

(** [\s] on code units below 256: tab, line feed, vertical tab, form
    feed, carriage return, space, no-break space. *)
Definition is_space (c : Ascii.ascii) : bool :=
  let n := Ascii.N_of_ascii c in
  ((9 <=? n) && (n <=? 13) || (n =? 32) || (n =? 160))%N.

(** [[^\s@]] *)
Definition not_space_nor_at (c : Ascii.ascii) : bool :=
  negb (is_space c) && negb (Ascii.eqb c "@"%char).

(** [/^[^\s@]+@[^\s@]+\.[^\s@]+$/] *)
Definition emailRegex : Regex :=
  Then (Several (Class not_space_nor_at))
    (Then (Class (Ascii.eqb "@"%char))
       (Then (Several (Class not_space_nor_at))
          (Then (Class (Ascii.eqb "."%char))
             (Several (Class not_space_nor_at))))).

Definition validateEmail (email : string) : bool :=
  test emailRegex (list_ascii_of_string email).

(** * Vocabulary of the properties *)

(** No code of [codes] occurs in [others]. *)
Definition disjointb (codes others : list Z) : bool :=
  forallb (fun x => negb (includes_num others x)) codes.

(** Every entry of a table is disjoint from, and named differently than,
    the later ones. *)
Fixpoint separatedb (table : list (Category * list Z)) : bool :=
  match table with
  | [] => true
  | (c, codes) :: rest =>
      forallb (fun e => negb (bool_decide (fst e = c)) && disjointb codes (snd e)) rest
      && separatedb rest
  end.

(** The record of a variant built in an empty heap, for examples. *)
Definition sample (v : Variant) (options : ExceptionOptions) : BaseException :=
  fst (construct v options {| now := 0; captured := None |} ∅).

(** Options that set the status code and nothing else. *)
Definition with_status (statusCode : Z) : ExceptionOptions :=
  {| Opt.message := None; Opt.statusCode := Some (Some statusCode); Opt.code := None;
     Opt.details := None; Opt.cause := None; Opt.timestamp := None;
     Opt.requestId := None; Opt.userId := None; Opt.context := None;
     Opt.isOperational := None; Opt.retryable := None; Opt.logLevel := None |}.

(** The options of a caller who passes one object as both maps. *)
Definition shared_maps (l : loc) : ExceptionOptions :=
  {| Opt.message := None; Opt.statusCode := None; Opt.code := None;
     Opt.details := Some (Some l); Opt.cause := None; Opt.timestamp := None;
     Opt.requestId := None; Opt.userId := None; Opt.context := Some (Some l);
     Opt.isOperational := None; Opt.retryable := None; Opt.logLevel := None |}.

(** Options [{ statusCode: undefined }]: the key is there, without a value. *)
Definition undefined_status : ExceptionOptions :=
  {| Opt.message := None; Opt.statusCode := Some None; Opt.code := None;
     Opt.details := None; Opt.cause := None; Opt.timestamp := None;
     Opt.requestId := None; Opt.userId := None; Opt.context := None;
     Opt.isOperational := None; Opt.retryable := None; Opt.logLevel := None |}.

(** The value a field ends up with: the caller's when the options hold
    one; the base class's when the options have the key without a value;
    and with no such key in the options the variant's, else the base
    class's. *)
Definition resolved {A : Type} (given : option (option A)) (preset : option A)
    (global : A) : A :=
  match given, preset with
  | Some (Some v), _ => v
  | Some None, _ => global
  | None, Some d => d
  | None, None => global
  end.

(** The integers that the engine prints digit by digit:
    [Number.MIN_SAFE_INTEGER .. Number.MAX_SAFE_INTEGER]. *)
Definition safe_integer (n : Z) : Prop := - 2 ^ 53 < n < 2 ^ 53.

(** The numbers a variant puts into its message are safe integers. *)
Definition printable (v : Variant) : Prop :=
  match v with
  | RateLimitExceededException limit _ => safe_integer limit
  | _ => True
  end.

(** *** The identity of each class, as documented

    The status is the one in the heading of the class (protocol family) or
    the one of its kind of failure; the code is the class name in capitals
    or the name of the failure; the message is the reason phrase or a
    sentence about the arguments. *)

Definition documented_statusCode (v : Variant) : Z :=
  match v with
  | BadRequestException => 400
  | UnauthorizedException | AuthenticationException => 401
  | ForbiddenException | AuthorizationException
  | InsufficientPermissionsException _ => 403
  | NotFoundException | ResourceNotFoundException _ _ => 404
  | MethodNotAllowedException => 405
  | ConflictException | DuplicateResourceException _ _ _
  | DataIntegrityException _ | DatabaseConstraintException _ _ => 409
  | UnprocessableEntityException | ValidationException
  | BusinessRuleViolationException _ _ => 422
  | TooManyRequestsException | RateLimitExceededException _ _ => 429
  | InternalServerErrorException | ConfigurationException _
  | DatabaseQueryException _ | DatabaseTransactionException _
  | CacheException _ _ | FileSystemException _ _ | TestException => 500
  | ServiceUnavailableException | FeatureNotAvailableException _
  | MaintenanceModeException _ | DatabaseConnectionException _
  | ExternalServiceException _ _ | ExternalServiceUnavailableException _
  | NetworkException _ _ => 503
  | GatewayTimeoutException | ExternalServiceTimeoutException _ _ => 504
  | ThirdPartyAPIException _ _ None => 503
  | ThirdPartyAPIException _ _ (Some given) => if decide (given = 0) then 503 else given
  end.

Definition documented_code (v : Variant) : string :=
  match v with
  | BadRequestException => "BAD_REQUEST"
  | UnauthorizedException => "UNAUTHORIZED"
  | ForbiddenException => "FORBIDDEN"
  | NotFoundException => "NOT_FOUND"
  | MethodNotAllowedException => "METHOD_NOT_ALLOWED"
  | ConflictException => "CONFLICT"
  | UnprocessableEntityException => "UNPROCESSABLE_ENTITY"
  | TooManyRequestsException => "TOO_MANY_REQUESTS"
  | InternalServerErrorException => "INTERNAL_SERVER_ERROR"
  | ServiceUnavailableException => "SERVICE_UNAVAILABLE"
  | GatewayTimeoutException => "GATEWAY_TIMEOUT"
  | ValidationException => "VALIDATION_ERROR"
  | AuthenticationException => "AUTHENTICATION_FAILED"
  | AuthorizationException => "AUTHORIZATION_FAILED"
  | ResourceNotFoundException _ _ => "RESOURCE_NOT_FOUND"
  | DuplicateResourceException _ _ _ => "DUPLICATE_RESOURCE"
  | InsufficientPermissionsException _ => "INSUFFICIENT_PERMISSIONS"
  | RateLimitExceededException _ _ => "RATE_LIMIT_EXCEEDED"
  | BusinessRuleViolationException _ _ => "BUSINESS_RULE_VIOLATION"
  | DataIntegrityException _ => "DATA_INTEGRITY_VIOLATION"
  | ConfigurationException _ => "CONFIGURATION_ERROR"
  | FeatureNotAvailableException _ => "FEATURE_NOT_AVAILABLE"
  | MaintenanceModeException _ => "MAINTENANCE_MODE"
  | DatabaseConnectionException _ => "DATABASE_CONNECTION_ERROR"
  | DatabaseQueryException _ => "DATABASE_QUERY_ERROR"
  | DatabaseTransactionException _ => "DATABASE_TRANSACTION_ERROR"
  | DatabaseConstraintException _ _ => "DATABASE_CONSTRAINT_VIOLATION"
  | ExternalServiceException _ _ => "EXTERNAL_SERVICE_ERROR"
  | ExternalServiceTimeoutException _ _ => "EXTERNAL_SERVICE_TIMEOUT"
  | ExternalServiceUnavailableException _ => "EXTERNAL_SERVICE_UNAVAILABLE"
  | CacheException _ _ => "CACHE_ERROR"
  | FileSystemException _ _ => "FILE_SYSTEM_ERROR"
  | NetworkException _ _ => "NETWORK_ERROR"
  | ThirdPartyAPIException _ _ _ => "THIRD_PARTY_API_ERROR"
  | TestException => "INTERNAL_ERROR"
  end.

Definition documented_message (v : Variant) : string :=
  match v with
  | BadRequestException => "Bad Request"
  | UnauthorizedException => "Unauthorized"
  | ForbiddenException => "Forbidden"
  | NotFoundException => "Not Found"
  | MethodNotAllowedException => "Method Not Allowed"
  | ConflictException => "Conflict"
  | UnprocessableEntityException => "Unprocessable Entity"
  | TooManyRequestsException => "Too Many Requests"
  | InternalServerErrorException => "Internal Server Error"
  | ServiceUnavailableException => "Service Unavailable"
  | GatewayTimeoutException => "Gateway Timeout"
  | ValidationException => "Validation Error"
  | AuthenticationException => "Authentication Failed"
  | AuthorizationException => "Authorization Failed"
  | ResourceNotFoundException resourceType resourceId =>
      resourceType +:+ " with id '" +:+ resourceId +:+ "' not found"
  | DuplicateResourceException resourceType field value =>
      resourceType +:+ " with " +:+ field +:+ " '" +:+ value +:+ "' already exists"
  | InsufficientPermissionsException requiredPermission =>
      "Insufficient permissions. Required: " +:+ requiredPermission
  | RateLimitExceededException limit window =>
      "Rate limit exceeded. Limit: " +:+ pretty limit +:+ " requests per " +:+ window
  | BusinessRuleViolationException rule _ => "Business rule violation: " +:+ rule
  | DataIntegrityException constraint =>
      "Data integrity constraint violated: " +:+ constraint
  | ConfigurationException configKey => "Configuration error: " +:+ configKey
  | FeatureNotAvailableException feature =>
      "Feature '" +:+ feature +:+ "' is not available"
  | MaintenanceModeException _ => "Service is currently under maintenance"
  | DatabaseConnectionException database =>
      "Database connection failed: " +:+ database
  | DatabaseQueryException _ => "Database query failed"
  | DatabaseTransactionException operation =>
      "Database transaction failed: " +:+ operation
  | DatabaseConstraintException constraint _ =>
      "Database constraint violated: " +:+ constraint
  | ExternalServiceException service _ => "External service error: " +:+ service
  | ExternalServiceTimeoutException service _ =>
      "External service timeout: " +:+ service
  | ExternalServiceUnavailableException service =>
      "External service unavailable: " +:+ service
  | CacheException operation _ => "Cache operation failed: " +:+ operation
  | FileSystemException operation _ =>
      "File system operation failed: " +:+ operation
  | NetworkException operation _ => "Network operation failed: " +:+ operation
  | ThirdPartyAPIException api _ _ => "Third-party API error: " +:+ api
  | TestException => "An error occurred"
  end.

(** The classes whose failure may pass: rate limits, maintenance, and what
    depends on a database connection, a cache, the network or another
    service. *)
Definition documented_retryable (v : Variant) : bool :=
  match v with
  | TooManyRequestsException | ServiceUnavailableException
  | GatewayTimeoutException | RateLimitExceededException _ _
  | MaintenanceModeException _ | DatabaseConnectionException _
  | ExternalServiceException _ _ | ExternalServiceTimeoutException _ _
  | ExternalServiceUnavailableException _ | CacheException _ _
  | NetworkException _ _ | ThirdPartyAPIException _ _ _ => true
  | _ => false
  end.

(** The classes that stand for a defect or a failed dependency, not for an
    expected outcome. *)
Definition documented_isOperational (v : Variant) : bool :=
  match v with
  | InternalServerErrorException | ServiceUnavailableException
  | GatewayTimeoutException | ConfigurationException _
  | DatabaseConnectionException _ | DatabaseQueryException _
  | DatabaseTransactionException _ | ExternalServiceException _ _
  | ExternalServiceTimeoutException _ _ | ExternalServiceUnavailableException _
  | CacheException _ _ | FileSystemException _ _ | NetworkException _ _
  | ThirdPartyAPIException _ _ _ => false
  | _ => true
  end.

(** The details a class records: its arguments, under their names. *)
Definition documented_details (v : Variant) : list (string * JsVal) :=
  match v with
  | ResourceNotFoundException resourceType resourceId =>
      [("resourceType", JStr resourceType); ("resourceId", JStr resourceId)]
  | DuplicateResourceException resourceType field value =>
      [("resourceType", JStr resourceType); ("field", JStr field);
       ("value", JStr value)]
  | InsufficientPermissionsException requiredPermission =>
      [("requiredPermission", JStr requiredPermission)]
  | RateLimitExceededException limit window =>
      [("limit", JNum limit); ("window", JStr window)]
  | BusinessRuleViolationException rule given =>
      map_to_list (default ∅ given) ++ [("rule", JStr rule)]
  | DataIntegrityException constraint => [("constraint", JStr constraint)]
  | ConfigurationException configKey => [("configKey", JStr configKey)]
  | FeatureNotAvailableException feature => [("feature", JStr feature)]
  | MaintenanceModeException estimatedDuration =>
      [("estimatedDuration", str_or_undefined estimatedDuration)]
  | DatabaseConnectionException database => [("database", JStr database)]
  | DatabaseQueryException query => [("query", JStr query)]
  | DatabaseTransactionException operation => [("operation", JStr operation)]
  | DatabaseConstraintException constraint table =>
      [("constraint", JStr constraint); ("table", JStr table)]
  | ExternalServiceException service endpoint =>
      [("service", JStr service); ("endpoint", JStr endpoint)]
  | ExternalServiceTimeoutException service timeout =>
      [("service", JStr service); ("timeout", JNum timeout)]
  | ExternalServiceUnavailableException service => [("service", JStr service)]
  | CacheException operation key =>
      [("operation", JStr operation); ("key", str_or_undefined key)]
  | FileSystemException operation path =>
      [("operation", JStr operation); ("path", JStr path)]
  | NetworkException operation url =>
      [("operation", JStr operation); ("url", JStr url)]
  | ThirdPartyAPIException api endpoint statusCode =>
      [("api", JStr api); ("endpoint", JStr endpoint);
       ("apiStatusCode", num_or_undefined statusCode)]
  | _ => []
  end.

(** [search] occurs in the string [s], when there is one. *)
Definition occurs_in (search : string) (s : option string) : Prop :=
  ∃ text pre post, s = Some text ∧ text = pre +:+ search +:+ post.

(** The transient network codes: connection reset, connection refused,
    timed out, name not found, network unreachable, broken pipe, DNS retry. *)
Definition transient_codes : list string :=
  [ "ECONNRESET"; "ECONNREFUSED"; "ETIMEDOUT"; "ENOTFOUND"; "ENETUNREACH";
    "EPIPE"; "EAI_AGAIN" ].

(** A field is missing on a plain object when the object has no property
    of that name, neither of its own nor from [Object.prototype], or has it
    as [undefined], [null] or the empty string. *)
Definition missing_on (o : JsObject) (field : string) : Prop :=
  (o !! field = None ∧ field ∉ Object_prototype)
  ∨ o !! field = Some JUndefined
  ∨ o !! field = Some JNull ∨ o !! field = Some (JStr "").

#[global] Instance missing_on_dec o field : Decision (missing_on o field).
Proof. unfold missing_on. apply _. Defined.

(** What a settled attempt makes the driver do when it is its last. *)
Definition completion_of {T : Type} (o : @Outcome T) : Completion T :=
  match o with
  | Resolved v => Return v
  | Rejected e => Throw e
  end.

(** The number of calls of the operation among the events. *)
Fixpoint attempts {T : Type} (events : list (@Event T)) : nat :=
  match events with
  | [] => O
  | Attempt _ :: rest => S (attempts rest)
  | Sleep _ :: rest => attempts rest
  end.

(** The waits among the events, in order. *)
Fixpoint delays {T : Type} (events : list (@Event T)) : list Number :=
  match events with
  | [] => []
  | Attempt _ :: rest => delays rest
  | Sleep ms :: rest => ms :: delays rest
  end.

(** The index, counted from the first, of the attempt that follows the
    events [before] in a run begun at [attempt]. *)
Definition index_after {T : Type} (attempt : Z) (before : list (@Event T)) : Z :=
  attempt + Z.of_nat (attempts before).

(** The delay of the attempt with index [attemptIndex], as the driver
    computes it. *)
Definition backoff (baseDelay maxDelay attemptIndex : Z) : Number :=
  Math_min (times baseDelay (Math_pow2 attemptIndex)) maxDelay.

(** [min(baseDelay * 2^attemptIndex, maxDelay)], over the integers. *)
Definition capped_backoff (baseDelay maxDelay attemptIndex : Z) : Z :=
  Z.min (baseDelay * 2 ^ attemptIndex) maxDelay.

(** The product [baseDelay * 2^attemptIndex] is one that the doubles have:
    always for a positive [baseDelay] (an infinity above is cut down to
    [maxDelay]); else while the power of two is finite and the product has
    not gone below the range. *)
Definition in_range (baseDelay attemptIndex : Z) : Prop :=
  0 < baseDelay
  ∨ (attemptIndex < 1024 ∧ - double_limit < baseDelay * 2 ^ attemptIndex).

(** [ms > bound], as the engine compares: never for NaN. *)
Definition exceeds (ms : Number) (bound : Z) : Prop :=
  match ms with
  | Finite n => bound < n
  | PosInfinity => True
  | NegInfinity | NaN => False
  end.

(** The state of the operation after [n] calls from [s], and what the
    next call answers. *)
Fixpoint state_after {St T : Type} (fn : St → @Outcome T * St) (s : St) (n : nat) : St :=
  match n with
  | O => s
  | S n => state_after fn (fn s).2 n
  end.

Definition outcome_after {St T : Type} (fn : St → @Outcome T * St) (s : St) (n : nat)
    : @Outcome T :=
  (fn (state_after fn s n)).1.

(** The backoffs of [n] consecutive attempts from [attemptIndex] on. *)
Fixpoint backoffs (baseDelay maxDelay attemptIndex : Z) (n : nat) : list Number :=
  match n with
  | O => []
  | S n => backoff baseDelay maxDelay attemptIndex
           :: backoffs baseDelay maxDelay (attemptIndex + 1) n
  end.

(** The same over the integers. *)
Fixpoint capped_backoffs (baseDelay maxDelay attemptIndex : Z) (n : nat) : list Z :=
  match n with
  | O => []
  | S n => capped_backoff baseDelay maxDelay attemptIndex
           :: capped_backoffs baseDelay maxDelay (attemptIndex + 1) n
  end.

Section Runs.
Context {St T : Type}.
Variable fn : St → @Outcome T * St.
Variables maxRetries baseDelay maxDelay : Z.

(** The runs of the loop from a given attempt on, one rule per way through
    its body. *)
Inductive retry_run :
  Z → option ErrorValue → St → Completion T → St → list Event → Prop :=
  | run_exit attempt lastError s :
      maxRetries < attempt →
      retry_run attempt lastError s
        (match lastError with Some e => Throw e | None => ThrowUndefined end) s []
  | run_resolved attempt lastError s v s' :
      attempt ≤ maxRetries →
      fn s = (Resolved v, s') →
      retry_run attempt lastError s (Return v) s' [Attempt (Resolved v)]
  | run_rethrow attempt lastError s error s' :
      attempt ≤ maxRetries →
      fn s = (Rejected error, s') →
      attempt = maxRetries ∨ isRetryableError error = false →
      retry_run attempt lastError s (Throw error) s' [Attempt (Rejected error)]
  | run_retry attempt lastError s error s1 c s' events :
      attempt < maxRetries →
      fn s = (Rejected error, s1) →
      isRetryableError error = true →
      retry_run (attempt + 1) (Some error) s1 c s' events →
      retry_run attempt lastError s c s'
        (Attempt (Rejected error) :: Sleep (backoff baseDelay maxDelay attempt) :: events).
End Runs.

(** The error of a reset connection, as Node reports it. *)
Definition connection_reset : ErrorValue :=
  Foreign {| Foreign.code := JStr "ECONNRESET"; Foreign.message := Some "ECONNRESET";
             Foreign.stack := None |}.

(** An operation that counts its calls and rejects each with [connection_reset]. *)
Definition always_fails (calls : nat) : @Outcome string * nat :=
  (Rejected connection_reset, S calls).

(** An operation that rejects its first two calls and resolves the third. *)
Definition fails_twice (calls : nat) : @Outcome string * nat :=
  if (Z.of_nat (S calls) <? 3) then (Rejected connection_reset, S calls)
  else (Resolved "success", S calls).

(** The run of an operation that is rejected with [error] every time and
    retried [n] times from [attempt] on. *)
Fixpoint retries {T : Type} (error : ErrorValue) (baseDelay maxDelay attempt : Z)
    (n : nat) : list (@Event T) :=
  match n with
  | O => [Attempt (Rejected error)]
  | S n => Attempt (Rejected error) :: Sleep (backoff baseDelay maxDelay attempt)
           :: retries error baseDelay maxDelay (attempt + 1) n
  end.

(** The sum of a list of waits. *)
Definition total (waits : list Z) : Z := foldr Z.add 0 waits.

(** The first code of the hundred that a category stands for. *)
Definition hundred (category : Category) : Z :=
  match category with
  | INFORMATIONAL => 100
  | SUCCESS => 200
  | REDIRECTION => 300
  | CLIENT_ERROR => 400
  | SERVER_ERROR => 500
  end.

(** Every code of every entry lies in the hundred of its category. *)
Definition in_hundredsb (table : list (Category * list Z)) : bool :=
  forallb (fun e => forallb (fun code => (hundred (fst e) <=? code)
                                         && (code <? hundred (fst e) + 100))
                            (snd e)) table.

(** The variant whose status code is an argument of the caller. *)
Definition custom_status (v : Variant) : Prop :=
  match v with
  | ThirdPartyAPIException _ _ (Some _) => True
  | _ => False
  end.

(** The strings a pattern stands for. *)
Inductive Matches : Regex → list ascii → Prop :=
  | matches_empty : Matches Empty []
  | matches_class accepts a : accepts a = true → Matches (Class accepts) [a]
  | matches_then r1 r2 s1 s2 :
      Matches r1 s1 → Matches r2 s2 → Matches (Then r1 r2) (s1 ++ s2)
  | matches_or_l r1 r2 s : Matches r1 s → Matches (Or r1 r2) s
  | matches_or_r r1 r2 s : Matches r2 s → Matches (Or r1 r2) s
  | matches_many_none r : Matches (Many r) []
  | matches_many_more r s1 s2 :
      Matches r s1 → Matches (Many r) s2 → Matches (Many r) (s1 ++ s2).

(** A character that may stand in any part of an address. *)
Definition plain (c : ascii) : Prop := is_space c = false ∧ c ≠ "@"%char.

(** A part of an address: not empty, of plain characters. *)
Definition address_part (part : list ascii) : Prop :=
  part ≠ [] ∧ Forall plain part.

(** A property value that [validateRequiredFields] takes as given: a
    number, a boolean, an object, or a string that is not empty. *)
Definition filled (v : JsVal) : Prop :=
  match v with
  | JUndefined | JNull => False
  | JStr s => s ≠ ""
  | JBool _ | JNum _ | JRef _ | JNative _ => True
  end.

(** The keys that [errorHandler] writes into the context of an exception. *)
Definition request_keys : list string := ["url"; "method"; "ip"; "userAgent"].

(** * Properties *)

(** ** Status registry *)

Section Registry.
Implicit Types (table : list (Category * list Z)) (code : Z) (c : Category).

Lemma disjointb_excludes codes others code :
  disjointb codes others = true →
  includes_num codes code = true → includes_num others code = false.
Proof.
  unfold disjointb. rewrite forallb_forall. intros Hall Hmem.
  unfold includes_num in Hmem. apply existsb_exists in Hmem as (x & Hin & Heq).
  apply Z.eqb_eq in Heq. subst x.
  apply Hall in Hin. by apply negb_true_iff in Hin.
Qed.

Lemma codes_of_entry table c code :
  includes_num (codes_of table c) code = true →
  ∃ e, In e table ∧ fst e = c ∧ includes_num (snd e) code = true.
Proof.
  induction table as [|[k codes] rest IH]; simpl; [done|].
  case_decide as Hk.
  - intros Hin. exists (k, codes). auto.
  - intros Hin. destruct (IH Hin) as (e & ? & ? & ?). exists e. auto.
Qed.

Lemma first_category_entry table c code :
  first_category table code = Some c →
  ∃ e, In e table ∧ fst e = c ∧ includes_num (snd e) code = true.
Proof.
  induction table as [|[k codes] rest IH]; simpl; [done|].
  destruct (includes_num codes code) eqn:Hin.
  - intros [= <-]. exists (k, codes). auto.
  - intros Hf. destruct (IH Hf) as (e & ? & ? & ?). exists e. auto.
Qed.

(** On a separated table, membership in a category's list and being the
    first category found are the same thing. *)
Lemma first_category_codes_of table c code :
  separatedb table = true →
  includes_num (codes_of table c) code = true ↔ first_category table code = Some c.
Proof.
  induction table as [|[k codes] rest IH]; simpl; [done|].
  rewrite andb_true_iff, forallb_forall. intros [Hhead Hrest].
  specialize (IH Hrest).
  case_decide as Hk; destruct (includes_num codes code) eqn:Hin.
  - subst k. done.
  - subst k. split; [done|]. intros Hf. exfalso.
    apply first_category_entry in Hf as (e & He & Hname & _).
    apply Hhead in He. apply andb_true_iff in He as [He _].
    apply negb_true_iff, bool_decide_eq_false in He. done.
  - split; [|congruence]. intros Hc. exfalso.
    apply codes_of_entry in Hc as (e & He & _ & Hmem).
    apply Hhead in He. apply andb_true_iff in He as [_ He].
    by rewrite (disjointb_excludes _ _ _ He Hin) in Hmem.
  - done.
Qed.
End Registry.

Lemma StatusCodeCategories_separated : separatedb StatusCodeCategories = true.
Proof. vm_compute. reflexivity. Qed.

(** C10: a status code is in a category's list exactly when
    [getStatusCodeCategory] answers that category; the five lists are
    pairwise disjoint, so a code is in at most one of them, and the answer
    is [null] exactly when it is in none. *)
Theorem isStatusCodeCategory_iff_getStatusCodeCategory :
  (∀ (statusCode : Z) (category : Category),
      isStatusCodeCategory statusCode category = true
      ↔ getStatusCodeCategory statusCode = Some category)
  ∧ (∀ (statusCode : Z) (c1 c2 : Category),
      isStatusCodeCategory statusCode c1 = true →
      isStatusCodeCategory statusCode c2 = true → c1 = c2)
  ∧ (∀ statusCode : Z,
      getStatusCodeCategory statusCode = None
      ↔ ∀ category, isStatusCodeCategory statusCode category = false).
Proof.
  assert (Hiff : ∀ statusCode category,
             isStatusCodeCategory statusCode category = true
             ↔ getStatusCodeCategory statusCode = Some category).
  { intros. apply first_category_codes_of, StatusCodeCategories_separated. }
  split; [exact Hiff|]. split.
  - intros statusCode c1 c2 H1%Hiff H2%Hiff. congruence.
  - intros statusCode. split.
    + intros Hnone category.
      destruct (isStatusCodeCategory statusCode category) eqn:Hc; [|done].
      apply Hiff in Hc. congruence.
    + intros Hall. destruct (getStatusCodeCategory statusCode) as [c|] eqn:Hg; [|done].
      apply Hiff in Hg. by rewrite Hall in Hg.
Qed.

(** ** Status ranges of a record *)

(** C4, as the code has it: [isClientError] is [400 <= statusCode < 500],
    [isServerError] is [500 <= statusCode < 600]; the two never hold
    together, one of them holds for every status code in [400, 600), and
    neither holds below 400. *)
Theorem isClientError_isServerError_ranges (r : BaseException) :
  (isClientError r = true ↔ 400 ≤ statusCode r < 500)
  ∧ (isServerError r = true ↔ 500 ≤ statusCode r < 600)
  ∧ ¬ (isClientError r = true ∧ isServerError r = true)
  ∧ (400 ≤ statusCode r < 600 → isClientError r = true ∨ isServerError r = true)
  ∧ (statusCode r < 400 → ¬ (isClientError r = true ∨ isServerError r = true)).
Proof.
  unfold isClientError, isServerError.
  rewrite !andb_true_iff, !Z.geb_le, !Z.ltb_lt. lia.
Qed.

Lemma isClientError_isServerError_ranges_witness :
  let r := sample NotFoundException Opt.empty in
  400 ≤ statusCode r < 600 ∧ (isClientError r = true ∨ isServerError r = true).
Proof.
  split; [vm_compute; split; congruence|].
  apply (proj1 (proj2 (proj2 (proj2
           (isClientError_isServerError_ranges (sample NotFoundException Opt.empty)))))).
  vm_compute. split; congruence.
Defined.

(** C4 as stated fails: a record with status 200, which lies in
    [100, 600), is neither a client nor a server error. *)
Lemma isClientError_isServerError_not_exhaustive :
  let r := sample TestException (with_status 200) in
  100 ≤ statusCode r < 600 ∧ ¬ (isClientError r = true ∨ isServerError r = true).
Proof.
  split; [vm_compute; split; congruence|].
  vm_compute. intros [H|H]; discriminate H.
Qed.

(** ** Classification of errors *)

Section Includes.
Implicit Types s search pre post : string.

Lemma append_cons a s post : String a s +:+ post = String a (s +:+ post).
Proof. reflexivity. Qed.

Lemma prefix_app search s :
  String.prefix search s = true ↔ ∃ post, s = search +:+ post.
Proof.
  revert s. induction search as [|a search IH]; intros s.
  - split; [|by destruct s]. intros _. by exists s.
  - destruct s as [|b s]; simpl.
    + split; [done|]. intros [post Hpost]. by rewrite append_cons in Hpost.
    + destruct (Ascii.ascii_dec a b) as [->|Hne].
      * rewrite IH. split; intros [post Hpost]; exists post;
          rewrite append_cons in *; congruence.
      * split; [done|]. intros [post Hpost].
        rewrite append_cons in Hpost. congruence.
Qed.

(** [includes] finds exactly the substrings. *)
Lemma includes_spec s search :
  includes s search = true ↔ ∃ pre post, s = pre +:+ search +:+ post.
Proof.
  induction s as [|a s IH];
    (change (includes ?x search) with
       (String.prefix search x
        || match x with "" => false | String _ rest => includes rest search end));
    rewrite orb_true_iff, prefix_app.
  - split.
    + intros [[post Hpost]|]; [|done]. by exists "", post.
    + intros (pre & post & Hs). left. destruct pre as [|b pre].
      * by exists post.
      * by rewrite append_cons in Hs.
  - rewrite IH. split.
    + intros [[post Hpost]|(pre & post & Hs)].
      * by exists "", post.
      * exists (String a pre), post. by rewrite append_cons, Hs.
    + intros (pre & post & Hs). destruct pre as [|b pre].
      * left. by exists post.
      * right. rewrite append_cons in Hs. injection Hs as <- Hs. by exists pre, post.
Qed.
End Includes.

Lemma opt_includes_spec s search :
  opt_includes s search = true ↔ occurs_in search s.
Proof.
  unfold occurs_in. destruct s as [text|]; simpl.
  - rewrite includes_spec. split.
    + intros (pre & post & ?). by exists text, pre, post.
    + intros (? & pre & post & [= <-] & ?). by exists pre, post.
  - split; [done|]. by intros (? & ? & ? & ? & ?).
Qed.

Lemma retryableErrors_transient_codes code :
  In code retryableErrors ↔ In code transient_codes.
Proof. unfold retryableErrors, transient_codes. simpl. tauto. Qed.

(** The code listed twice is tested twice, to the same effect. *)
Lemma existsb_retryableErrors (test : string → bool) :
  existsb test retryableErrors = existsb test transient_codes.
Proof.
  unfold retryableErrors, transient_codes. simpl.
  destruct (test "ECONNRESET"), (test "ECONNREFUSED"), (test "ETIMEDOUT"),
    (test "ENOTFOUND"), (test "ENETUNREACH"); reflexivity.
Qed.

Lemma existsb_pointwise {A : Type} (f g : A → bool) (l : list A) :
  (∀ x, f x = g x) → existsb f l = existsb g l.
Proof. intros Hfg. induction l as [|x l IH]; simpl; [done|]. by rewrite Hfg, IH. Qed.

(** C6: a modeled exception is retryable exactly when its [retryable] flag
    says so; any other error exactly when one of the seven transient codes
    is its [code], or occurs in its [message], or occurs in its [stack].
    The three tests are tried in that order for each code. *)
Theorem isRetryableError_spec :
  (∀ r : BaseException, isRetryableError (Modeled r) = retryable r)
  ∧ (∀ e : Foreign.t,
       isRetryableError (Foreign e) = true
       ↔ ∃ code, In code transient_codes
                 ∧ (Foreign.code e = JStr code
                    ∨ occurs_in code (Foreign.message e)
                    ∨ occurs_in code (Foreign.stack e)))
  ∧ (∀ e : Foreign.t,
       isRetryableError (Foreign e)
       = existsb (fun code =>
                    if bool_decide (Foreign.code e = JStr code) then true
                    else if opt_includes (Foreign.message e) code then true
                    else opt_includes (Foreign.stack e) code)
                 transient_codes).
Proof.
  split; [done|]. split; intros e.
  - unfold isRetryableError. rewrite existsb_exists. split.
    + intros (code & Hin & Hcode). exists code.
      rewrite <- retryableErrors_transient_codes. split; [done|].
      rewrite !orb_true_iff, bool_decide_eq_true, !opt_includes_spec in Hcode. tauto.
    + intros (code & Hin & Hcode). exists code.
      rewrite retryableErrors_transient_codes. split; [done|].
      rewrite !orb_true_iff, bool_decide_eq_true, !opt_includes_spec. tauto.
  - unfold isRetryableError. rewrite existsb_retryableErrors.
    apply existsb_pointwise. intros code.
    by destruct (bool_decide _), (opt_includes (Foreign.message e) code).
Qed.

(** C8: a modeled exception is logged exactly when the rank of its level
    (error 0, warn 1, info 2, debug 3) is at most the rank of the threshold;
    any other error exactly when the threshold is [error]. *)
Theorem shouldLogError_spec :
  (logLevels LogError = 0 ∧ logLevels LogWarn = 1
   ∧ logLevels LogInfo = 2 ∧ logLevels LogDebug = 3)
  ∧ (∀ (r : BaseException) (threshold : LogLevel),
       shouldLogError (Modeled r) threshold = true
       ↔ logLevels (logLevel r) ≤ logLevels threshold)
  ∧ (∀ (e : Foreign.t) (threshold : LogLevel),
       shouldLogError (Foreign e) threshold = true ↔ threshold = LogError).
Proof.
  split; [done|]. split; intros x threshold; simpl.
  - apply Z.leb_le.
  - apply bool_decide_eq_true.
Qed.

(** ** Construction *)

Section Allocation.
Implicit Types (h : Heap) (o : JsObject).

Lemma insert_fresh_extends o h : h ⊆ <[fresh (dom h) := o]> h.
Proof. apply insert_subseteq, not_elem_of_dom, is_fresh. Qed.

(** A second allocation is new for the old heap and differs from the first. *)
Lemma fresh_after_insert o h (l : loc) :
  (fresh (dom (<[l := o]> h)) ∉ dom h) ∧ fresh (dom (<[l := o]> h)) ≠ l.
Proof.
  pose proof (is_fresh (dom (<[l := o]> h))) as Hfresh.
  rewrite dom_insert_L in *.
  split; [intros Hin|intros Heq]; apply Hfresh; set_solver.
Qed.

(** What is new for a heap is new for every part of it. *)
Lemma fresh_extension h h' : h ⊆ h' → fresh (dom h') ∉ dom h.
Proof.
  intros Hsub Hin. apply (is_fresh (dom h')).
  by apply (subseteq_dom h h' Hsub).
Qed.
End Allocation.

Lemma default_or_else {A : Type} (given : option (option A)) (preset : option A)
    (global : A) :
  or_default global (or_else given (written preset)) = resolved given preset global.
Proof. by destruct given as [[?|]|], preset. Qed.

Lemma read_or_else_None {A : Type} (given : option (option A)) :
  read (or_else given None) = mjoin given.
Proof. by destruct given as [[?|]|]. Qed.

(** The fields of a new record, from the options and the literal of the
    class. *)
Lemma construct_from_literal (v : Variant) (options : ExceptionOptions)
    (env : Ambient) (h : Heap) :
  let lit := variant_literal v in
  let r := fst (construct v options env h) in
  let h' := snd (construct v options env h) in
  message r = resolved (Opt.message options) (lit_message lit) "An error occurred"
  ∧ statusCode r = resolved (Opt.statusCode options) (lit_statusCode lit) 500
  ∧ code r = resolved (Opt.code options) (lit_code lit) "INTERNAL_ERROR"
  ∧ isOperational r = resolved (Opt.isOperational options) (lit_isOperational lit) true
  ∧ retryable r = resolved (Opt.retryable options) (lit_retryable lit) false
  ∧ logLevel r = resolved (Opt.logLevel options) None LogError
  ∧ timestamp r = resolved (Opt.timestamp options) None (now env)
  ∧ requestId r = mjoin (Opt.requestId options)
  ∧ userId r = mjoin (Opt.userId options)
  ∧ cause r = mjoin (Opt.cause options)
  ∧ match Opt.details options with
    | Some (Some l) => details r = l
    | Some None => (details r ∉ dom h) ∧ h' !! details r = Some ∅
    | None => (details r ∉ dom h) ∧ h' !! details r = Some (default ∅ (lit_details lit))
    end
  ∧ match Opt.context options with
    | Some (Some l) => context r = l
    | Some None | None => (context r ∉ dom h) ∧ h' !! context r = Some ∅
    end
  ∧ h ⊆ h'.
Proof.
  intros lit r h'. subst r h'.
  unfold construct, eval_literal, new_BaseException, or_fresh, alloc. fold lit.
  destruct (lit_details lit) as [o|] eqn:Hdet,
    (Opt.details options) as [[d|]|] eqn:Hd,
    (Opt.context options) as [[c|]|] eqn:Hc; simpl; rewrite ?Hd, ?Hc; simpl.
  all: rewrite !default_or_else, !read_or_else_None.
  all: change (or_default ?d (or_else ?given None)) with
         (or_default d (or_else given (written None)));
       rewrite !default_or_else.
  all: repeat match goal with |- _ ∧ _ => split end; try done.
  all: try apply is_fresh.
  all: try apply lookup_insert_eq.
  all: try apply insert_fresh_extends.
  all: try apply fresh_after_insert.
  all: try (etrans; [|apply insert_fresh_extends]; apply insert_fresh_extends).
  all: try (etrans; [|apply insert_fresh_extends];
            etrans; [|apply insert_fresh_extends]; apply insert_fresh_extends).
  all: try (rewrite lookup_insert_ne by apply fresh_after_insert; apply lookup_insert_eq).
  all: apply fresh_extension; etrans; [|apply insert_fresh_extends];
    apply insert_fresh_extends.
Qed.

(** The literal of each class writes what the class documents. *)
Lemma literal_documented (v : Variant) :
  let lit := variant_literal v in
  (∀ given, resolved given (lit_message lit) "An error occurred"
            = resolved given (Some (documented_message v)) "An error occurred")
  ∧ (∀ given, resolved given (lit_statusCode lit) 500
              = resolved given (Some (documented_statusCode v)) 500)
  ∧ (∀ given, resolved given (lit_code lit) "INTERNAL_ERROR"
              = resolved given (Some (documented_code v)) "INTERNAL_ERROR")
  ∧ (∀ given, resolved given (lit_isOperational lit) true
              = resolved given (Some (documented_isOperational v)) true)
  ∧ (∀ given, resolved given (lit_retryable lit) false
              = resolved given (Some (documented_retryable v)) false)
  ∧ default ∅ (lit_details lit) = list_to_map (documented_details v).
Proof.
  destruct v as [| | | | | | | | | | | | | | | | | |rule given| | | | | | | | | | | | | |
                 |api endpoint [n|]|];
    simpl; repeat split; try (by intros [[?|]|]).
  - unfold rule_details. rewrite list_to_map_app, list_to_map_to_list. done.
  - intros [[?|]|]; simpl; try done.
    unfold num_or. simpl. case_decide as Hn; [by subst|].
    by apply Z.eqb_neq in Hn as ->.
Qed.

(** C5, as the code has it: for every variant and every options object,
    each field of the new record is the caller's value when the options
    hold one, the documented default of the variant (for the bare subclass:
    of the base class) when the options do not have the key, and the default
    of the base class when they have the key without a value.  Without
    [details] (or [context]) in the options the record gets an object of its
    own, new in the heap, holding the details of the variant (or nothing).
    The objects the heap already had are as they were.  A number that a
    variant prints in its message is taken to be a safe integer. *)
Theorem construct_fields (v : Variant) (options : ExceptionOptions)
    (env : Ambient) (h : Heap) :
  printable v →
  let r := fst (construct v options env h) in
  let h' := snd (construct v options env h) in
  message r
  = resolved (Opt.message options) (Some (documented_message v)) "An error occurred"
  ∧ statusCode r
    = resolved (Opt.statusCode options) (Some (documented_statusCode v)) 500
  ∧ code r = resolved (Opt.code options) (Some (documented_code v)) "INTERNAL_ERROR"
  ∧ isOperational r
    = resolved (Opt.isOperational options) (Some (documented_isOperational v)) true
  ∧ retryable r
    = resolved (Opt.retryable options) (Some (documented_retryable v)) false
  ∧ logLevel r = resolved (Opt.logLevel options) None LogError
  ∧ timestamp r = resolved (Opt.timestamp options) None (now env)
  ∧ requestId r = mjoin (Opt.requestId options)
  ∧ userId r = mjoin (Opt.userId options)
  ∧ cause r = mjoin (Opt.cause options)
  ∧ match Opt.details options with
    | Some (Some l) => details r = l
    | Some None => (details r ∉ dom h) ∧ h' !! details r = Some ∅
    | None =>
        (details r ∉ dom h)
        ∧ h' !! details r = Some (list_to_map (documented_details v))
    end
  ∧ match Opt.context options with
    | Some (Some l) => context r = l
    | Some None | None => (context r ∉ dom h) ∧ h' !! context r = Some ∅
    end
  ∧ h ⊆ h'
  ∧ (documented_statusCode NotFoundException = 404
     ∧ documented_code NotFoundException = "NOT_FOUND")
  ∧ (documented_message TestException = "An error occurred"
     ∧ documented_statusCode TestException = 500
     ∧ documented_code TestException = "INTERNAL_ERROR"
     ∧ documented_isOperational TestException = true
     ∧ documented_retryable TestException = false
     ∧ documented_details TestException = []).
Proof.
  intros _ r h'. subst r h'.
  pose proof (construct_from_literal v options env h)
    as (Hmessage & Hstatus & Hcode & Hoperational & Hretryable & Hlevel & Htime
        & Hrequest & Huser & Hcause & Hdetails & Hcontext & Hheap).
  pose proof (literal_documented v) as (Lmessage & Lstatus & Lcode & Loperational
                                        & Lretryable & Ldetails).
  simpl in *.
  rewrite Lmessage in Hmessage. rewrite Lstatus in Hstatus. rewrite Lcode in Hcode.
  rewrite Loperational in Hoperational. rewrite Lretryable in Hretryable.
  rewrite Ldetails in Hdetails.
  repeat (split; [assumption|]). done.
Qed.

Lemma construct_fields_witness :
  let v := RateLimitExceededException 100 "hour" in
  let env := {| now := 0; captured := None |} in
  printable v
  ∧ statusCode (construct v (with_status 430) env ∅).1
    = resolved (Opt.statusCode (with_status 430)) (Some (documented_statusCode v)) 500
  ∧ retryable (construct v (with_status 430) env ∅).1
    = resolved (Opt.retryable (with_status 430)) (Some (documented_retryable v)) false.
Proof.
  intros v env.
  assert (Hprintable : printable v) by (split; reflexivity).
  split; [exact Hprintable|].
  pose proof (construct_fields v (with_status 430) env ∅ Hprintable)
    as (_ & Hstatus & _ & _ & Hretryable & _).
  split; [exact Hstatus|exact Hretryable].
Defined.

(** C5 as stated fails: options that have the key [statusCode] without a
    value give a [NotFoundException] the status of the base class, 500, not
    the 404 of the variant. *)
Lemma construct_undefined_statusCode :
  let r := sample NotFoundException undefined_status in
  Opt.statusCode undefined_status = Some None
  ∧ statusCode r = 500
  ∧ code r = "NOT_FOUND"
  ∧ documented_statusCode NotFoundException = 404.
Proof. by vm_compute. Qed.

(** The two maps of a new record are one object only when the caller gave
    one object as both. *)
Lemma construct_distinct_maps (v : Variant) (options : ExceptionOptions)
    (env : Ambient) (h : Heap) :
  (∀ l, Opt.details options = Some (Some l) → l ∈ dom h) →
  (∀ l, Opt.context options = Some (Some l) → l ∈ dom h) →
  (∀ l, Opt.details options = Some (Some l) → Opt.context options ≠ Some (Some l)) →
  details (construct v options env h).1 ≠ context (construct v options env h).1.
Proof.
  intros Hdetails Hcontext Hdistinct.
  unfold construct, eval_literal, new_BaseException, or_fresh, alloc.
  destruct (lit_details (variant_literal v)) as [o|],
    (Opt.details options) as [[d|]|] eqn:Hd,
    (Opt.context options) as [[c|]|] eqn:Hc;
    simpl; rewrite ?Hd, ?Hc; simpl.
  all: try specialize (Hdetails d eq_refl).
  all: try specialize (Hcontext c eq_refl).
  all: try (intros ->; by apply (Hdistinct c)).
  all: intros Heq;
    first [ by (subst;
                match goal with
                | H : fresh (dom _) ∈ dom _ |- _ =>
                    revert H; apply fresh_extension;
                    repeat first [ apply insert_fresh_extends
                                 | etrans; [|apply insert_fresh_extends] ]
                end)
          | match goal with
            | H : fresh (dom ?m) = fresh (dom (<[fresh (dom ?m) := ?e]> ?m)) |- _ =>
                symmetry in H;
                by apply (proj2 (fresh_after_insert e m (fresh (dom m)))) in H
            end ].
Qed.

Example ResourceNotFoundException_User_123 :
  let r := fst (construct (ResourceNotFoundException "User" "123") Opt.empty
                  {| now := 0; captured := None |} ∅) in
  let h := snd (construct (ResourceNotFoundException "User" "123") Opt.empty
                  {| now := 0; captured := None |} ∅) in
  message r = "User with id '123' not found"
  ∧ statusCode r = 404
  ∧ get_prop (deref h (details r)) "resourceType" = JStr "User"
  ∧ get_prop (deref h (details r)) "resourceId" = JStr "123".
Proof. vm_compute. done. Qed.

Example NotFoundException_status_overridden :
  let r := sample NotFoundException (with_status 410) in
  statusCode r = 410 ∧ code r = "NOT_FOUND" ∧ message r = "Not Found".
Proof. vm_compute. done. Qed.

Example TooManyRequestsException_defaults :
  let r := sample TooManyRequestsException Opt.empty in
  statusCode r = 429 ∧ retryable r = true ∧ isOperational r = true
  ∧ logLevel r = LogError.
Proof. vm_compute. done. Qed.

Example RateLimitExceededException_100_hour :
  let r := sample (RateLimitExceededException 100 "hour") Opt.empty in
  message r = "Rate limit exceeded. Limit: 100 requests per hour"
  ∧ retryable r = true.
Proof. vm_compute. done. Qed.

(** ** The response payload *)

(** Whatever the environment, the payload carries the record's [details]. *)
Lemma toResponse_details (NODE_ENV : option string) (r : BaseException) :
  Response.details (toResponse NODE_ENV r) = Some (details r).
Proof. unfold toResponse. simpl. by rewrite orb_true_r. Qed.

(** C3 does not hold of the code: in production, the payload of a record
    built without details still has the [details] key, bound to the record's
    empty object. *)
Theorem toResponse_production_empty_details :
  let built := construct BadRequestException Opt.empty
                 {| now := 0; captured := None |} ∅ in
  let r := fst built in
  let h := snd built in
  is_development (Some "production") = false
  ∧ deref h (details r) = ∅
  ∧ Response.details (toResponse (Some "production") r) = Some (details r).
Proof. vm_compute. done. Qed.

(** ** Enrichment *)

Section Enrichment.
Implicit Types (r : BaseException) (h : Heap) (l : loc) (key : string) (value : JsVal).

Lemma write_ordinary key value (o : JsObject) :
  key ≠ "__proto__" → write key value o = <[key := value]> o.
Proof.
  intros Hne. unfold write. rewrite bool_decide_eq_false_2; [done|]. by intros [? _].
Qed.

Lemma write_keeps key key' value (o : JsObject) :
  key' ∈ dom o → key' ∈ dom (write key value o).
Proof. unfold write. case_bool_decide; [done|]. rewrite dom_insert_L. set_solver. Qed.

Lemma set_prop_lookup l key value h :
  key ≠ "__proto__" →
  set_prop l key value h !! l = insert key value <$> h !! l.
Proof.
  intros Hne. unfold set_prop. rewrite lookup_alter_eq.
  destruct (h !! l) as [o|]; simpl; [|done]. by rewrite write_ordinary.
Qed.

Lemma set_prop_lookup_ne l l' key value h :
  l' ≠ l → set_prop l key value h !! l' = h !! l'.
Proof. intros Hne. unfold set_prop. by rewrite lookup_alter_ne. Qed.

(** Writing a property never takes a key away, from any object. *)
Lemma set_prop_keeps l l' key key' value h :
  key' ∈ dom (deref h l') → key' ∈ dom (deref (set_prop l key value h) l').
Proof.
  unfold deref. destruct (decide (l' = l)) as [->|Hne].
  - unfold set_prop. rewrite lookup_alter_eq.
    destruct (h !! l) as [o|]; simpl; [|done]. apply write_keeps.
  - by rewrite set_prop_lookup_ne.
Qed.

Lemma call_keeps_references m r h :
  details (call m r h).1 = details r ∧ context (call m r h).1 = context r.
Proof. by destruct m. Qed.

Lemma call_keeps_keys m r h l key :
  key ∈ dom (deref h l) → key ∈ dom (deref (call m r h).2 l).
Proof. destruct m; simpl; try done; apply set_prop_keeps. Qed.
End Enrichment.

(** C9, as the code has it: [addDetail] returns the receiver as it was and
    changes no object but the one that [details] refers to, in which, for
    every key other than [__proto__], it binds the key to the value;
    [addContext] does the same for [context].  So when the two references
    differ, each method leaves the other map alone.  No method changes
    either reference or takes a key away from any object. *)
Theorem addDetail_addContext_frame (r : BaseException) (key : string)
    (value : JsVal) (h : Heap) :
  ((addDetail key value r h).1 = r
   ∧ (key ≠ "__proto__" →
      (addDetail key value r h).2 !! details r = (insert key value <$> h !! details r))
   ∧ ∀ l, l ≠ details r → (addDetail key value r h).2 !! l = h !! l)
  ∧ ((addContext key value r h).1 = r
     ∧ (key ≠ "__proto__" →
        (addContext key value r h).2 !! context r = (insert key value <$> h !! context r))
     ∧ ∀ l, l ≠ context r → (addContext key value r h).2 !! l = h !! l)
  ∧ (details r ≠ context r →
     (addDetail key value r h).2 !! context r = h !! context r
     ∧ (addContext key value r h).2 !! details r = h !! details r)
  ∧ (∀ (m : Method) (l : loc) (key' : string),
       details (call m r h).1 = details r
       ∧ context (call m r h).1 = context r
       ∧ (key' ∈ dom (deref h l) → key' ∈ dom (deref (call m r h).2 l))).
Proof.
  repeat split.
  - intros Hkey. by apply set_prop_lookup.
  - intros l Hne. by apply set_prop_lookup_ne.
  - intros Hkey. by apply set_prop_lookup.
  - intros l Hne. by apply set_prop_lookup_ne.
  - simpl. by apply set_prop_lookup_ne.
  - simpl. by apply set_prop_lookup_ne.
  - apply call_keeps_references.
  - apply call_keeps_references.
  - apply call_keeps_keys.
Qed.

Lemma addDetail_addContext_frame_witness :
  let built := construct NotFoundException Opt.empty {| now := 0; captured := None |} ∅ in
  let r := fst built in
  let h := snd built in
  ("k" ≠ "__proto__"
   ∧ (addDetail "k" (JNum 1) r h).2 !! details r
     = (insert "k" (JNum 1) <$> h !! details r))
  ∧ (details r ≠ context r
     ∧ (addDetail "k" (JNum 1) r h).2 !! context r = h !! context r
     ∧ (addContext "k" (JNum 1) r h).2 !! details r = h !! details r).
Proof.
  intros built r h.
  assert (Hkey : "k" ≠ "__proto__") by discriminate.
  assert (Hne : details r ≠ context r) by (vm_compute; congruence).
  split.
  - split; [exact Hkey|].
    exact (proj1 (proj2 (proj1 (addDetail_addContext_frame r "k" (JNum 1) h))) Hkey).
  - split; [exact Hne|].
    exact (proj1 (proj2 (proj2 (addDetail_addContext_frame r "k" (JNum 1) h))) Hne).
Defined.

(** C9 as stated fails: on a record whose [details] and [context] are one
    object, [addDetail] writes the key into the context map too. *)
Lemma addDetail_changes_shared_context :
  let h0 : Heap := {[ 1%positive := ∅ ]} in
  let built := construct BadRequestException (shared_maps 1%positive)
                 {| now := 0; captured := None |} h0 in
  let r := fst built in
  let h := snd built in
  get_prop (deref h (context r)) "k" = JUndefined
  ∧ get_prop (deref (addDetail "k" (JNum 1) r h).2 (context r)) "k" = JNum 1
  ∧ deref (addDetail "k" (JNum 1) r h).2 (context r) ≠ deref h (context r).
Proof.
  vm_compute. repeat split; try reflexivity. intros H. discriminate H.
Qed.

(** ** Required fields *)








Example validateRequiredFields_John_complete :
  let h : Heap := {[ 1%positive := {[ "name" := JStr "John"; "email" := JStr "j@x.com" ]} ]} in
  validateRequiredFields 1%positive ["name"; "email"] {| now := 0; captured := None |} h
  = (Return tt, h).
Proof. reflexivity. Qed.

(** Every plain object, the empty one too, has a [constructor] and a
    [toString]: they are never missing.  A name that no object has is. *)
Example validateRequiredFields_inherited :
  let h : Heap := {[ 1%positive := ∅ ]} in
  let env := {| now := 0; captured := None |} in
  validateRequiredFields 1%positive ["constructor"; "toString"; "__proto__"] env h
  = (Return tt, h)
  ∧ validateRequiredFields 1%positive ["constructor"; "name"] env h
    = (Throw (Foreign (new_Error "Missing required fields: name" env)), h).
Proof. by vm_compute. Qed.

(** ** The retry driver *)

Section RetryRuns.
Context {St T : Type}.
Variable fn : St → @Outcome T * St.
Variables maxRetries baseDelay maxDelay : Z.

Local Abbreviation loop := (retry_loop fn maxRetries baseDelay maxDelay).
Local Abbreviation retry_run := (retry_run fn maxRetries baseDelay maxDelay).

(** Every result of the loop is a run. *)
Lemma retry_loop_run fuel attempt lastError s c s' events :
  loop fuel attempt lastError s = Some (c, s', events) →
  retry_run attempt lastError s c s' events.
Proof.
  revert attempt lastError s c s' events.
  induction fuel as [|fuel IH]; intros attempt lastError s c s' events; simpl; [done|].
  destruct (attempt <=? maxRetries) eqn:Hle.
  - apply Z.leb_le in Hle.
    destruct (fn s) as [[v|error] s1] eqn:Hfn.
    + intros [= <- <- <-]. by apply run_resolved.
    + destruct ((attempt =? maxRetries) || negb (isRetryableError error)) eqn:Hstop.
      * intros [= <- <- <-]. apply run_rethrow; [done..|].
        apply orb_true_iff in Hstop as [?%Z.eqb_eq|?%negb_true_iff]; auto.
      * apply orb_false_iff in Hstop as [Hne%Z.eqb_neq Hretry%negb_false_iff].
        destruct (loop fuel (attempt + 1) (Some error) s1) as [[[c1 s2] rest]|] eqn:Hrec;
          [|done].
        intros [= <- <- <-]. eapply run_retry; [lia|done..|by apply IH].
  - apply Z.leb_gt in Hle. intros [= <- <- <-]. by apply run_exit.
Qed.

(** With one unit of fuel per loop test the loop comes to its end. *)
Lemma retry_loop_total fuel attempt lastError s :
  (Z.to_nat (maxRetries + 1 - attempt) < fuel)%nat →
  is_Some (loop fuel attempt lastError s).
Proof.
  revert attempt lastError s.
  induction fuel as [|fuel IH]; intros attempt lastError s Hfuel; simpl; [lia|].
  destruct (attempt <=? maxRetries) eqn:Hle; [|done].
  apply Z.leb_le in Hle.
  destruct (fn s) as [[v|error] s1]; [done|].
  destruct ((attempt =? maxRetries) || negb (isRetryableError error)); [done|].
  destruct (IH (attempt + 1) (Some error) s1) as [[[c s'] events] ->]; [lia|done].
Qed.

Lemma retryWithBackoff_run s :
  ∃ c s' events,
    retryWithBackoff fn maxRetries baseDelay maxDelay s = Some (c, s', events)
    ∧ retry_run 0 None s c s' events.
Proof.
  unfold retryWithBackoff.
  destruct (retry_loop_total (S (Z.to_nat (maxRetries + 1))) 0 None s)
    as [[[c s'] events] Hrun]; [lia|].
  exists c, s', events. split; [done|]. by apply retry_loop_run in Hrun.
Qed.

(** *** What every run satisfies *)


(** A run that starts within the bound starts with an attempt. *)
Lemma run_starts attempt lastError s c s' events :
  retry_run attempt lastError s c s' events →
  attempt ≤ maxRetries →
  ∃ o rest, events = Attempt o :: rest.
Proof. destruct 1; intros Hle; try lia; eauto. Qed.

(** A run that starts within the bound ends with an attempt, and completes
    as that attempt settled. *)
Lemma run_ends attempt lastError s c s' events :
  retry_run attempt lastError s c s' events →
  attempt ≤ maxRetries →
  ∃ before o, events = before ++ [Attempt o] ∧ c = completion_of o.
Proof.
  induction 1 as [| | |attempt lastError s error s1 c s' events ? ? ? ? IH];
    intros Hle; try lia.
  - by exists [], (Resolved v).
  - by exists [], (Rejected error).
  - destruct IH as (before & o & -> & ->); [lia|].
    by exists (Attempt (Rejected error) :: Sleep (backoff baseDelay maxDelay attempt) :: before), o.
Qed.

(** What follows a rejected attempt. *)
Lemma run_after_rejection attempt lastError s c s' events before error after :
  retry_run attempt lastError s c s' events →
  events = before ++ Attempt (Rejected error) :: after →
  let i := index_after attempt before in
  (i = maxRetries ∨ isRetryableError error = false → after = [] ∧ c = Throw error)
  ∧ (i < maxRetries → isRetryableError error = true →
     ∃ o rest, after = Sleep (backoff baseDelay maxDelay i) :: Attempt o :: rest).
Proof.
  intros Hrun. revert before.
  induction Hrun as [attempt lastError s Hgt
                    |attempt lastError s v s' Hle Hfn
                    |attempt lastError s err s' Hle Hfn Hstop
                    |attempt lastError s err s1 c s' events Hlt Hfn Hretry Hrun IH];
    intros before Hev; unfold index_after.
  - by destruct before.
  - destruct before as [|? [|? ?]]; simpl in Hev; simplify_eq.
  - destruct before as [|? [|? ?]]; simpl in Hev; simplify_eq. simpl.
    rewrite Z.add_0_r. split; [done|]. intros Hi Hr. destruct Hstop; [lia|congruence].
  - destruct before as [|ev1 [|ev2 before]]; simpl in Hev; simplify_eq.
    + simpl. rewrite Z.add_0_r. split.
      * intros [?| ?]; [lia|congruence].
      * intros _ _. destruct (run_starts _ _ _ _ _ _ Hrun) as (o & rest & ->); [lia|].
        eauto.
    + destruct (IH before eq_refl) as [Hstop Hgo]. unfold index_after in *.
      simpl. replace (attempt + Z.of_nat (S (attempts before)))
        with (attempt + 1 + Z.of_nat (attempts before)) by lia.
      done.
Qed.

Lemma run_delays attempt lastError s c s' events :
  retry_run attempt lastError s c s' events →
  delays events = backoffs baseDelay maxDelay attempt (length (delays events)).
Proof.
  induction 1 as [| | |attempt lastError s error s1 c s' events ? ? ? ? IH]; simpl; try done.
  by rewrite <- IH.
Qed.

(** The attempts of a run are the calls of the operation, one after the
    other from the state the run began in, and the run leaves the state of
    the last call. *)
Lemma run_outcomes attempt lastError s c s' events :
  retry_run attempt lastError s c s' events →
  s' = state_after fn s (attempts events)
  ∧ ∀ before o after,
      events = before ++ Attempt o :: after →
      o = outcome_after fn s (attempts before).
Proof.
  induction 1 as [attempt lastError s Hgt
                 |attempt lastError s v s' Hle Hfn
                 |attempt lastError s err s' Hle Hfn Hstop
                 |attempt lastError s err s1 c s' events Hlt Hfn Hretry Hrun [IHs IH]];
    unfold outcome_after; simpl.
  - split; [done|]. intros before o after Hev. by destruct before.
  - rewrite Hfn. split; [done|]. intros before o after Hev.
    destruct before as [|? [|? ?]]; simpl in Hev; simplify_eq. simpl. by rewrite Hfn.
  - rewrite Hfn. split; [done|]. intros before o after Hev.
    destruct before as [|? [|? ?]]; simpl in Hev; simplify_eq. simpl. by rewrite Hfn.
  - rewrite Hfn. simpl. split; [done|]. intros before o after Hev.
    destruct before as [|ev1 [|ev2 before]]; simpl in Hev; simplify_eq.
    + simpl. by rewrite Hfn.
    + simpl. rewrite Hfn. simpl. by apply (IH before o after).
Qed.

(** A run that starts within the bound starts with a call of the operation. *)
Lemma run_first attempt lastError s c s' events :
  retry_run attempt lastError s c s' events →
  attempt ≤ maxRetries →
  ∃ rest, events = Attempt (outcome_after fn s 0) :: rest.
Proof.
  intros Hrun Hle.
  destruct (run_starts _ _ _ _ _ _ Hrun Hle) as (o & rest & ->).
  exists rest. f_equal. f_equal.
  by apply (proj2 (run_outcomes _ _ _ _ _ _ Hrun) [] o rest).
Qed.
End RetryRuns.

(** *** The delay, in double precision and over the integers *)

Lemma double_limit_positive : 0 < double_limit.
Proof. by vm_compute. Qed.

Lemma pow2_overflows attemptIndex : 1024 ≤ attemptIndex → double_limit ≤ 2 ^ attemptIndex.
Proof. intros Hle. unfold double_limit. apply Z.pow_le_mono_r; lia. Qed.

(** Where the product is in range the driver's delay is the capped product. *)
Lemma backoff_in_range baseDelay maxDelay attemptIndex :
  0 ≤ attemptIndex →
  maxDelay < double_limit →
  in_range baseDelay attemptIndex →
  backoff baseDelay maxDelay attemptIndex
  = Finite (capped_backoff baseDelay maxDelay attemptIndex).
Proof.
  intros Hindex Hmax Hrange.
  pose proof double_limit_positive as Hlimit.
  assert (Hpow : 0 < 2 ^ attemptIndex) by (apply Z.pow_pos_nonneg; lia).
  pose proof (pow2_overflows attemptIndex) as Hoverflow.
  unfold backoff, capped_backoff, Math_pow2, times, to_double, in_range in *.
  set (power := 2 ^ attemptIndex) in *. clearbody power.
  set (limit := double_limit) in *. clearbody limit.
  destruct (Z.ltb_spec attemptIndex 1024) as [Hsmall|Hlarge].
  - destruct (Z.leb_spec limit (baseDelay * power)) as [Hup|Hup]; simpl.
    { f_equal. lia. }
    destruct (Z.leb_spec (baseDelay * power) (- limit)) as [Hdown|Hdown]; simpl; [|done].
    exfalso. destruct Hrange as [Hpos|[_ Hlow]]; nia.
  - destruct Hrange as [Hpos|[Hsmall _]]; [|lia].
    destruct (Z.ltb_spec 0 baseDelay) as [_|?]; [|lia]. simpl.
    f_equal. specialize (Hoverflow Hlarge). nia.
Qed.

Lemma backoff_never_exceeds baseDelay maxDelay attemptIndex :
  ¬ exceeds (backoff baseDelay maxDelay attemptIndex) maxDelay.
Proof.
  unfold backoff. destruct (times baseDelay (Math_pow2 attemptIndex)); simpl; lia.
Qed.

Lemma backoffs_never_exceed baseDelay maxDelay attemptIndex n ms :
  ms ∈ backoffs baseDelay maxDelay attemptIndex n → ¬ exceeds ms maxDelay.
Proof.
  revert attemptIndex. induction n as [|n IH]; intros attemptIndex; simpl.
  - by intros ?%elem_of_nil.
  - intros [->|Hin]%elem_of_cons;
      [apply backoff_never_exceeds|by apply (IH (attemptIndex + 1))].
Qed.

(** With a positive [baseDelay] all the delays are capped products. *)
Lemma backoffs_positive baseDelay maxDelay attemptIndex n :
  0 < baseDelay → maxDelay < double_limit → 0 ≤ attemptIndex →
  backoffs baseDelay maxDelay attemptIndex n
  = map Finite (capped_backoffs baseDelay maxDelay attemptIndex n).
Proof.
  intros Hbase Hmax. revert attemptIndex.
  induction n as [|n IH]; intros attemptIndex Hindex; simpl; [done|].
  rewrite IH by lia. rewrite backoff_in_range; [done..|by left].
Qed.



Example retryWithBackoff_fails_twice :
  retryWithBackoff fails_twice 3 10 100 O
  = Some (Return "success", 3%nat,
          [ Attempt (Rejected connection_reset); Sleep (Finite 10);
            Attempt (Rejected connection_reset); Sleep (Finite 20);
            Attempt (Resolved "success") ]).
Proof. by vm_compute. Qed.


(** C2, as the code has it: the driver comes to an end, and in its run,
    whose attempts are the calls of the operation in order, a retryable
    rejection at attempt index [i < maxRetries] is followed by a wait of
    [Math.min(baseDelay * Math.pow(2, i), maxDelay)] and then by the next
    attempt.  That wait is [min(baseDelay * 2^i, maxDelay)] whenever the
    product is in range, as it is for every positive [baseDelay].  The
    waits of the run are exactly these, for [i = 0, 1, 2, ...], none above
    [maxDelay]; with 10 and 100 they go 10, 20, 40, 80, 100. *)
Theorem retryWithBackoff_delays {St T : Type}
    (fn : St → @Outcome T * St) (maxRetries baseDelay maxDelay : Z) (s : St) :
  ∃ c s' events,
    retryWithBackoff fn maxRetries baseDelay maxDelay s = Some (c, s', events)
    ∧ (0 ≤ maxRetries → ∃ rest, events = Attempt (outcome_after fn s 0) :: rest)
    ∧ (∀ before o after,
         events = before ++ Attempt o :: after →
         o = outcome_after fn s (attempts before))
    ∧ (∀ before error after,
         events = before ++ Attempt (Rejected error) :: after →
         isRetryableError error = true →
         Z.of_nat (attempts before) < maxRetries →
         ∃ o rest,
           after = Sleep (backoff baseDelay maxDelay (Z.of_nat (attempts before)))
                   :: Attempt o :: rest
           ∧ (in_range baseDelay (Z.of_nat (attempts before)) →
              maxDelay < double_limit →
              backoff baseDelay maxDelay (Z.of_nat (attempts before))
              = Finite (Z.min (baseDelay * 2 ^ Z.of_nat (attempts before)) maxDelay)))
    ∧ delays events = backoffs baseDelay maxDelay 0 (length (delays events))
    ∧ (∀ ms, ms ∈ delays events → ¬ exceeds ms maxDelay)
    ∧ backoffs 10 100 0 5 = [Finite 10; Finite 20; Finite 40; Finite 80; Finite 100].
Proof.
  destruct (retryWithBackoff_run fn maxRetries baseDelay maxDelay s)
    as (c & s' & events & Heq & Hrun).
  exists c, s', events. split; [done|].
  pose proof (run_delays _ _ _ _ _ _ _ _ _ _ Hrun) as Hdelays.
  pose proof (run_outcomes _ _ _ _ _ _ _ _ _ _ Hrun) as [_ Hcalls].
  split; [by apply (run_first _ _ _ _ _ _ _ _ _ _ Hrun)|].
  split; [exact Hcalls|].
  split; [|split; [done|split; [|by vm_compute]]].
  - intros before error after Hev Hretry Hlt.
    destruct (run_after_rejection _ _ _ _ _ _ _ _ _ _ before error after Hrun Hev)
      as [_ Hgo].
    unfold index_after in Hgo. rewrite Z.add_0_l in Hgo.
    destruct (Hgo Hlt Hretry) as (o & rest & ->).
    exists o, rest. split; [done|].
    intros Hrange Hmax. apply backoff_in_range; [lia|done..].
  - intros ms Hin. rewrite Hdelays in Hin. by apply backoffs_never_exceed in Hin.
Qed.

(** The operation that fails twice: its first rejection, retryable and
    with retries left, is followed by a wait of [min(10 * 2^0, 100)]. *)
Lemma retryWithBackoff_delays_witness :
  isRetryableError connection_reset = true
  ∧ Z.of_nat (attempts (@nil (@Event string))) < 3
  ∧ in_range 10 (Z.of_nat (attempts (@nil (@Event string))))
  ∧ 100 < double_limit
  ∧ backoff 10 100 (Z.of_nat (attempts (@nil (@Event string))))
    = Finite (Z.min (10 * 2 ^ Z.of_nat (attempts (@nil (@Event string)))) 100).
Proof.
  assert (Hretry : isRetryableError connection_reset = true) by reflexivity.
  assert (Hleft : Z.of_nat (attempts (@nil (@Event string))) < 3) by reflexivity.
  assert (Hrange : in_range 10 (Z.of_nat (attempts (@nil (@Event string)))))
    by (left; reflexivity).
  assert (Hmax : 100 < double_limit) by (by vm_compute).
  repeat (split; [assumption|]).
  destruct (retryWithBackoff_delays fails_twice 3 10 100 O)
    as (c & s' & events & Heq & _ & _ & Hwait & _).
  rewrite retryWithBackoff_fails_twice in Heq. injection Heq as <- <- <-.
  destruct (Hwait [] connection_reset
              [ Sleep (Finite 10); Attempt (Rejected connection_reset);
                Sleep (Finite 20); Attempt (Resolved "success") ]
              eq_refl Hretry Hleft) as (o & rest & _ & Hexact).
  exact (Hexact Hrange Hmax).
Defined.

(** C2 as stated fails: with a [baseDelay] of 0 the wait after the attempt
    with index 1024 is not [min(0 * 2^1024, maxDelay) = 0] but NaN, for
    [Math.pow(2, 1024)] is [Infinity]. *)
Lemma retryWithBackoff_zero_baseDelay_NaN :
  ∃ c s' events,
    retryWithBackoff always_fails 1025 0 100 O = Some (c, s', events)
    ∧ events !! 2048%nat = Some (Attempt (Rejected connection_reset))
    ∧ attempts (take 2048 events) = 1024%nat
    ∧ isRetryableError connection_reset = true
    ∧ events !! 2049%nat = Some (Sleep NaN)
    ∧ Z.min (0 * 2 ^ 1024) 100 = 0.
Proof.
  destruct (retryWithBackoff always_fails 1025 0 100 O) as [[[c s'] events]|] eqn:Hrun;
    [|vm_compute in Hrun; discriminate Hrun].
  exists c, s', events. split; [reflexivity|].
  assert (Hevents : events = retries connection_reset 0 100 0 1025).
  { vm_compute in Hrun. injection Hrun as _ _ <-. vm_compute. reflexivity. }
  subst events. vm_compute. repeat split.
Qed.

(** * Further properties *)

(** ** The retry driver, continued *)

Section MoreRuns.
Context {St T : Type}.
Variable fn : St → @Outcome T * St.
Variables maxRetries baseDelay maxDelay : Z.

Local Abbreviation run := (retry_run fn maxRetries baseDelay maxDelay).

(** Nothing follows an attempt that resolves. *)
Lemma run_after_success attempt lastError s c s' events before v after :
  run attempt lastError s c s' events →
  events = before ++ Attempt (Resolved v) :: after →
  after = [] ∧ c = Return v.
Proof.
  intros Hrun. revert before.
  induction Hrun as [attempt lastError s Hgt
                    |attempt lastError s v0 s' Hle Hfn
                    |attempt lastError s err s' Hle Hfn Hstop
                    |attempt lastError s err s1 c s' events Hlt Hfn Hretry Hrun IH];
    intros before Hev.
  - by destruct before.
  - destruct before as [|? [|? ?]]; simpl in Hev; by simplify_eq.
  - destruct before as [|? [|? ?]]; simpl in Hev; simplify_eq.
  - destruct before as [|ev1 [|ev2 before]]; simpl in Hev; simplify_eq.
    by apply (IH before).
Qed.

(** Every attempt but the last is a rejection worth a retry. *)
Lemma run_earlier_attempts attempt lastError s c s' events before o :
  run attempt lastError s c s' events →
  events = before ++ [Attempt o] →
  ∀ o', Attempt o' ∈ before → ∃ e, o' = Rejected e ∧ isRetryableError e = true.
Proof.
  intros Hrun. revert before.
  induction Hrun as [attempt lastError s Hgt
                    |attempt lastError s v0 s' Hle Hfn
                    |attempt lastError s err s' Hle Hfn Hstop
                    |attempt lastError s err s1 c s' events Hlt Hfn Hretry Hrun IH];
    intros before Hev o' Hin.
  - by destruct before.
  - destruct before as [|? [|? ?]]; simpl in Hev; simplify_eq.
    by apply elem_of_nil in Hin.
  - destruct before as [|? [|? ?]]; simpl in Hev; simplify_eq.
    by apply elem_of_nil in Hin.
  - destruct (run_starts _ _ _ _ _ _ _ _ _ _ Hrun) as (o1 & rest & ->); [lia|].
    destruct before as [|ev1 [|ev2 before]]; simpl in Hev; simplify_eq.
    apply elem_of_cons in Hin as [Hin|Hin]; [simplify_eq; eauto|].
    apply elem_of_cons in Hin as [Hin|Hin]; [done|].
    by apply (IH before).
Qed.


(** There is at most one wait per retry that is left. *)
Lemma run_delays_count attempt lastError s c s' events :
  run attempt lastError s c s' events →
  attempt ≤ maxRetries →
  Z.of_nat (length (delays events)) ≤ maxRetries - attempt.
Proof.
  induction 1 as [| | |attempt lastError s err s1 c s' events Hlt Hfn Hretry Hrun IH];
    intros Hatt; simpl; lia.
Qed.
End MoreRuns.



Lemma capped_backoff_grows baseDelay maxDelay attempt :
  0 ≤ baseDelay → 0 ≤ attempt →
  capped_backoff baseDelay maxDelay attempt
  ≤ capped_backoff baseDelay maxDelay (attempt + 1).
Proof.
  intros Hbase Hatt. unfold capped_backoff.
  rewrite Z.pow_add_r by lia. change (2 ^ 1) with 2.
  assert (0 < 2 ^ attempt) by (apply Z.pow_pos_nonneg; lia).
  apply Z.min_le_compat_r. nia.
Qed.

Lemma capped_backoffs_sorted baseDelay maxDelay attempt n :
  0 ≤ baseDelay → 0 ≤ attempt →
  Sorted Z.le (capped_backoffs baseDelay maxDelay attempt n).
Proof.
  intros Hbase. revert attempt.
  induction n as [|n IH]; intros attempt Hatt; simpl; [constructor|].
  constructor; [apply IH; lia|].
  destruct n; simpl; constructor. by apply capped_backoff_grows.
Qed.

Lemma capped_backoffs_total baseDelay maxDelay attempt n :
  total (capped_backoffs baseDelay maxDelay attempt n) ≤ Z.of_nat n * maxDelay.
Proof.
  revert attempt. induction n as [|n IH]; intros attempt; simpl; [done|].
  specialize (IH (attempt + 1)).
  pose proof (Z.le_min_r (baseDelay * 2 ^ attempt) maxDelay).
  unfold capped_backoff, total in *. nia.
Qed.

(** X1: with a negative [maxRetries] the loop body never runs: the
    operation is not called and the driver throws [lastError], which was
    never assigned. *)
Theorem retryWithBackoff_negative_maxRetries {St T : Type}
    (fn : St → @Outcome T * St) (maxRetries baseDelay maxDelay : Z) (s : St) :
  maxRetries < 0 →
  retryWithBackoff fn maxRetries baseDelay maxDelay s = Some (ThrowUndefined, s, []).
Proof.
  intros Hneg. unfold retryWithBackoff. simpl.
  by destruct (Z.leb_spec 0 maxRetries); [lia|].
Qed.

Lemma retryWithBackoff_negative_maxRetries_witness :
  -1 < 0
  ∧ retryWithBackoff always_fails (-1) 10 100 O = Some (ThrowUndefined, O, []).
Proof.
  split; [lia|].
  apply (retryWithBackoff_negative_maxRetries always_fails (-1) 10 100 O). lia.
Defined.

(** X2: the attempts of a run are the calls of the operation, in order.
    An attempt that resolves is the last event of the run and its value is
    what the driver returns; and the driver returns a value only so, after
    attempts that were all rejected with a retryable error, leaving the
    operation in the state of the call that resolved. *)
Theorem retryWithBackoff_stops_at_success {St T : Type}
    (fn : St → @Outcome T * St) (maxRetries baseDelay maxDelay : Z) (s : St) :
  ∃ c s' events,
    retryWithBackoff fn maxRetries baseDelay maxDelay s = Some (c, s', events)
    ∧ (∀ before o after,
         events = before ++ Attempt o :: after →
         o = outcome_after fn s (attempts before))
    ∧ s' = state_after fn s (attempts events)
    ∧ (∀ before v after,
         events = before ++ Attempt (Resolved v) :: after →
         after = [] ∧ c = Return v)
    ∧ (∀ v, c = Return v →
         ∃ before,
           events = before ++ [Attempt (Resolved v)]
           ∧ outcome_after fn s (attempts before) = Resolved v
           ∧ ∀ o, Attempt o ∈ before →
                  ∃ e, o = Rejected e ∧ isRetryableError e = true).
Proof.
  destruct (retryWithBackoff_run fn maxRetries baseDelay maxDelay s)
    as (c & s' & events & Heq & Hrun).
  pose proof (run_outcomes _ _ _ _ _ _ _ _ _ _ Hrun) as [Hstate Hcalls].
  exists c, s', events. split; [done|].
  split; [exact Hcalls|]. split; [exact Hstate|]. split.
  - intros before v after. by apply (run_after_success _ _ _ _ _ _ _ _ _ _ _ _ _ Hrun).
  - intros v ->.
    assert (0 ≤ maxRetries) as Hmax.
    { destruct (Z.le_gt_cases 0 maxRetries) as [|Hneg]; [done|].
      unfold retryWithBackoff in Heq. simpl in Heq.
      destruct (Z.leb_spec 0 maxRetries); [lia|]. simplify_eq. }
    destruct (run_ends _ _ _ _ _ _ _ _ _ _ Hrun Hmax) as (before & o & Hev & Hc).
    destruct o as [v'|e]; simpl in Hc; simplify_eq.
    exists before. split; [done|]. split.
    + symmetry. by apply (Hcalls before (Resolved v') []).
    + by apply (run_earlier_attempts _ _ _ _ _ _ _ _ _ _ _ (Resolved v') Hrun).
Qed.

(** The operation that fails twice: its third call resolves, so that
    attempt is the last event and its value is what the driver returns. *)
Lemma retryWithBackoff_stops_at_success_witness :
  ∃ c s' events,
    retryWithBackoff fails_twice 3 10 100 O = Some (c, s', events)
    ∧ events = [ Attempt (Rejected connection_reset); Sleep (Finite 10);
                 Attempt (Rejected connection_reset); Sleep (Finite 20) ]
               ++ Attempt (Resolved "success") :: []
    ∧ c = Return "success"
    ∧ s' = state_after fails_twice O 3.
Proof.
  destruct (retryWithBackoff_stops_at_success fails_twice 3 10 100 O)
    as (c & s' & events & Heq & _ & Hstate & Hlast & _).
  exists c, s', events. split; [exact Heq|].
  rewrite retryWithBackoff_fails_twice in Heq. injection Heq as Hc Hs Hevents.
  split; [by rewrite <- Hevents|]. split.
  - apply (Hlast [ Attempt (Rejected connection_reset); Sleep (Finite 10);
                   Attempt (Rejected connection_reset); Sleep (Finite 20) ]
                 "success" []).
    by rewrite <- Hevents.
  - rewrite Hstate, <- Hevents. reflexivity.
Defined.



(** X4: with [maxRetries >= 0], a positive [baseDelay] and
    [0 <= maxDelay < 2^1024], the waits of a run are finite and add up to at
    most [maxRetries * maxDelay]. *)
Theorem retryWithBackoff_total_wait {St T : Type}
    (fn : St → @Outcome T * St) (maxRetries baseDelay maxDelay : Z) (s : St) :
  0 ≤ maxRetries → 0 < baseDelay → 0 ≤ maxDelay → maxDelay < double_limit →
  ∃ c s' events waits,
    retryWithBackoff fn maxRetries baseDelay maxDelay s = Some (c, s', events)
    ∧ delays events = map Finite waits
    ∧ total waits ≤ maxRetries * maxDelay.
Proof.
  intros Hmax Hbase Hdelay Hlimit.
  destruct (retryWithBackoff_run fn maxRetries baseDelay maxDelay s)
    as (c & s' & events & Heq & Hrun).
  exists c, s', events,
    (capped_backoffs baseDelay maxDelay 0 (length (delays events))).
  split; [done|]. split.
  - rewrite <- backoffs_positive by (done || lia).
    apply (run_delays _ _ _ _ _ _ _ _ _ _ Hrun).
  - pose proof (run_delays_count _ _ _ _ _ _ _ _ _ _ Hrun Hmax) as Hcount.
    pose proof (capped_backoffs_total baseDelay maxDelay 0 (length (delays events))).
    nia.
Qed.

Lemma retryWithBackoff_total_wait_witness :
  0 ≤ 2 ∧ 0 < 10 ∧ 0 ≤ 100 ∧ 100 < double_limit
  ∧ ∃ c s' events waits,
      retryWithBackoff always_fails 2 10 100 O = Some (c, s', events)
      ∧ delays events = map Finite waits
      ∧ total waits ≤ 2 * 100.
Proof.
  assert (Hlimit : 100 < double_limit) by (by vm_compute).
  split; [lia|]. split; [lia|]. split; [lia|]. split; [exact Hlimit|].
  apply (retryWithBackoff_total_wait always_fails 2 10 100 O); (lia || exact Hlimit).
Defined.

(** X5: with a positive [baseDelay] and [maxDelay < 2^1024] the waits of a
    run are finite and never get shorter from one retry to the next. *)
Theorem retryWithBackoff_waits_grow {St T : Type}
    (fn : St → @Outcome T * St) (maxRetries baseDelay maxDelay : Z) (s : St) :
  0 < baseDelay → maxDelay < double_limit →
  ∃ c s' events waits,
    retryWithBackoff fn maxRetries baseDelay maxDelay s = Some (c, s', events)
    ∧ delays events = map Finite waits
    ∧ Sorted Z.le waits.
Proof.
  intros Hbase Hlimit.
  destruct (retryWithBackoff_run fn maxRetries baseDelay maxDelay s)
    as (c & s' & events & Heq & Hrun).
  exists c, s', events,
    (capped_backoffs baseDelay maxDelay 0 (length (delays events))).
  split; [done|]. split.
  - rewrite <- backoffs_positive by (done || lia).
    apply (run_delays _ _ _ _ _ _ _ _ _ _ Hrun).
  - apply capped_backoffs_sorted; lia.
Qed.

Lemma retryWithBackoff_waits_grow_witness :
  0 < 10 ∧ 100 < double_limit
  ∧ ∃ c s' events waits,
      retryWithBackoff fails_twice 3 10 100 O = Some (c, s', events)
      ∧ delays events = map Finite waits
      ∧ Sorted Z.le waits.
Proof.
  assert (Hlimit : 100 < double_limit) by (by vm_compute).
  split; [lia|]. split; [exact Hlimit|].
  apply (retryWithBackoff_waits_grow fails_twice 3 10 100 O); (lia || exact Hlimit).
Defined.

(** ** The registry, continued *)

Lemma first_category_none (table : list (Category * list Z)) (code : Z) :
  first_category table code = None
  ↔ ∀ e, In e table → includes_num (snd e) code = false.
Proof.
  induction table as [|[c codes] rest IH]; simpl; [by split|].
  destruct (includes_num codes code) eqn:Hin.
  - split; [done|]. intros Hall. specialize (Hall (c, codes) (or_introl eq_refl)).
    simpl in Hall. congruence.
  - rewrite IH. split.
    + intros Hall e [<-|He]; [done|by apply Hall].
    + intros Hall e He. apply Hall. by right.
Qed.

Lemma includes_num_In (codes : list Z) (code : Z) :
  includes_num codes code = true ↔ In code codes.
Proof.
  unfold includes_num. rewrite existsb_exists. split.
  - by intros (x & Hin & ->%Z.eqb_eq).
  - intros Hin. exists code. split; [done|apply Z.eqb_refl].
Qed.

Lemma in_hundredsb_range (table : list (Category * list Z)) (code : Z) (c : Category) :
  in_hundredsb table = true →
  first_category table code = Some c →
  hundred c ≤ code < hundred c + 100.
Proof.
  unfold in_hundredsb. rewrite forallb_forall. intros Hall Hfirst.
  apply first_category_entry in Hfirst as (e & He & <- & Hin).
  specialize (Hall e He). rewrite forallb_forall in Hall.
  apply includes_num_In in Hin. specialize (Hall code Hin).
  apply andb_true_iff in Hall as [?%Z.leb_le ?%Z.ltb_lt]. lia.
Qed.

(** X6: the category that the registry gives a code is the one of its
    leading digit.  So a record whose code the registry files under
    CLIENT_ERROR (SERVER_ERROR) is a client (server) error for
    [isClientError] ([isServerError]); not the other way round, for 499 is
    a client error that the registry does not know. *)
Theorem category_is_leading_digit :
  (∀ (statusCode : Z) (category : Category),
     getStatusCodeCategory statusCode = Some category →
     hundred category ≤ statusCode < hundred category + 100)
  ∧ (∀ r : BaseException,
       isStatusCodeCategory (statusCode r) CLIENT_ERROR = true → isClientError r = true)
  ∧ (∀ r : BaseException,
       isStatusCodeCategory (statusCode r) SERVER_ERROR = true → isServerError r = true)
  ∧ (isClientError (sample TestException (with_status 499)) = true
     ∧ getStatusCodeCategory 499 = None).
Proof.
  assert (Hrange : ∀ statusCode category,
             getStatusCodeCategory statusCode = Some category →
             hundred category ≤ statusCode < hundred category + 100).
  { intros statusCode category. by apply in_hundredsb_range. }
  split; [exact Hrange|]. split; [|split; [|done]].
  - intros r Hin.
    apply first_category_codes_of in Hin; [|apply StatusCodeCategories_separated].
    apply Hrange in Hin. simpl in Hin.
    unfold isClientError. apply andb_true_iff. rewrite Z.geb_le, Z.ltb_lt. lia.
  - intros r Hin.
    apply first_category_codes_of in Hin; [|apply StatusCodeCategories_separated].
    apply Hrange in Hin. simpl in Hin.
    unfold isServerError. apply andb_true_iff. rewrite Z.geb_le, Z.ltb_lt. lia.
Qed.

(** X7: the codes that [StatusCodes] names are exactly the codes that have
    a category; no name and no code is listed twice. *)
Theorem StatusCodes_are_the_categorised_codes :
  (∀ code : Z,
     (∃ name, In (name, code) StatusCodes_all) ↔ getStatusCodeCategory code ≠ None)
  ∧ NoDup (map fst StatusCodes_all)
  ∧ NoDup (map snd StatusCodes_all).
Proof.
  split; [|split].
  - intros code.
    assert (Hsame : map snd StatusCodes_all = concat (map snd StatusCodeCategories))
      by reflexivity.
    assert (Hnamed : (∃ name, In (name, code) StatusCodes_all)
                     ↔ In code (concat (map snd StatusCodeCategories))).
    { rewrite <- Hsame, in_map_iff. split.
      - intros [name Hin]. by exists (name, code).
      - intros ([name code'] & Heq & Hin). simpl in Heq. subst code'. by exists name. }
    rewrite Hnamed, in_concat. unfold getStatusCodeCategory. split.
    + intros (codes & Hcodes & Hin) Hnone.
      apply in_map_iff in Hcodes as (e & <- & He).
      rewrite first_category_none in Hnone. specialize (Hnone e He).
      apply includes_num_In in Hin. congruence.
    + intros Hsome.
      destruct (first_category StatusCodeCategories code) as [c|] eqn:Hfirst; [|done].
      apply first_category_entry in Hfirst as (e & He & _ & Hin).
      exists (snd e). split; [by apply in_map|by apply includes_num_In].
  - apply (bool_decide_unpack _). by vm_compute.
  - apply (bool_decide_unpack _). by vm_compute.
Qed.

(** ** The variants, continued *)

Lemma construct_statusCode v options env h :
  statusCode (construct v options env h).1
  = resolved (Opt.statusCode options) (lit_statusCode (variant_literal v)) 500.
Proof. apply (construct_from_literal v options env h). Qed.

Lemma construct_retryable v options env h :
  retryable (construct v options env h).1
  = resolved (Opt.retryable options) (lit_retryable (variant_literal v)) false.
Proof. apply (construct_from_literal v options env h). Qed.

(** X8: every exception class, built without a status code of the
    caller's, is either a client error or a server error, never both, and
    the registry files its status code under the same category. *)
Theorem variants_are_client_or_server_errors (v : Variant)
    (options : ExceptionOptions) (env : Ambient) (h : Heap) :
  Opt.statusCode options = None →
  ¬ custom_status v →
  let r := (construct v options env h).1 in
  isClientError r = negb (isServerError r)
  ∧ getStatusCodeCategory (statusCode r)
    = Some (if isClientError r then CLIENT_ERROR else SERVER_ERROR).
Proof.
  intros Hnone Hcustom r. subst r.
  unfold isClientError, isServerError.
  rewrite construct_statusCode, Hnone.
  destruct v as [| | | | | | | | | | | | | | | | | | | | | | | | | | | | | | | | |? ? [n|]|];
    simpl in *; try done.
Qed.

Lemma variants_are_client_or_server_errors_witness :
  let r := (construct (CacheException "get" None) Opt.empty
              {| now := 0; captured := None |} ∅).1 in
  Opt.statusCode Opt.empty = None
  ∧ ¬ custom_status (CacheException "get" None)
  ∧ isClientError r = negb (isServerError r)
  ∧ getStatusCodeCategory (statusCode r)
    = Some (if isClientError r then CLIENT_ERROR else SERVER_ERROR).
Proof.
  intros r.
  assert (Hcustom : ¬ custom_status (CacheException "get" None)) by (intros []).
  split; [reflexivity|]. split; [exact Hcustom|].
  exact (variants_are_client_or_server_errors (CacheException "get" None) Opt.empty
           {| now := 0; captured := None |} ∅ eq_refl Hcustom).
Defined.

(** X9: of the exception classes, built without a status code or a
    retryable flag of the caller's, the only client errors that the retry
    driver would retry are those with status 429. *)
Theorem retryable_client_errors_are_429 (v : Variant)
    (options : ExceptionOptions) (env : Ambient) (h : Heap) :
  Opt.statusCode options = None →
  Opt.retryable options = None →
  ¬ custom_status v →
  let r := (construct v options env h).1 in
  isClientError r = true →
  isRetryableError (Modeled r) = true →
  statusCode r = 429.
Proof.
  intros Hstatus Hretry Hcustom r. subst r.
  unfold isClientError, isRetryableError, isRetryable.
  rewrite construct_statusCode, construct_retryable, Hstatus, Hretry.
  destruct v as [| | | | | | | | | | | | | | | | | | | | | | | | | | | | | | | | |? ? [n|]|];
    simpl in *; try done.
Qed.

Lemma retryable_client_errors_are_429_witness :
  let r := (construct (RateLimitExceededException 100 "hour") Opt.empty
              {| now := 0; captured := None |} ∅).1 in
  Opt.statusCode Opt.empty = None
  ∧ Opt.retryable Opt.empty = None
  ∧ ¬ custom_status (RateLimitExceededException 100 "hour")
  ∧ isClientError r = true
  ∧ isRetryableError (Modeled r) = true
  ∧ statusCode r = 429.
Proof.
  intros r.
  assert (Hcustom : ¬ custom_status (RateLimitExceededException 100 "hour"))
    by (intros []).
  assert (Hclient : isClientError r = true) by (by vm_compute).
  assert (Hretry : isRetryableError (Modeled r) = true) by (by vm_compute).
  repeat (split; [first [reflexivity|assumption]|]).
  exact (retryable_client_errors_are_429 (RateLimitExceededException 100 "hour")
           Opt.empty {| now := 0; captured := None |} ∅ eq_refl eq_refl Hcustom
           Hclient Hretry).
Defined.

(** X10: for an exception class built without a status code of the
    caller's, [getStatusMessage] has no message, and answers
    ['Unknown Error'], exactly for the classes with status 405 or 504. *)
Theorem getStatusMessage_of_variants (v : Variant)
    (options : ExceptionOptions) (env : Ambient) (h : Heap) :
  Opt.statusCode options = None →
  ¬ custom_status v →
  let r := (construct v options env h).1 in
  getStatusMessage r = "Unknown Error" ↔ statusCode r = 405 ∨ statusCode r = 504.
Proof.
  intros Hnone Hcustom r. subst r.
  unfold getStatusMessage.
  rewrite construct_statusCode, Hnone.
  destruct v as [| | | | | | | | | | | | | | | | | | | | | | | | | | | | | | | | |? ? [n|]|];
    simpl in *; try done.
  all: split; [intros Hm|intros [Hc|Hc]];
    first [ by left | by right | discriminate Hm | discriminate Hc | reflexivity ].
Qed.

Lemma getStatusMessage_of_variants_witness :
  let r := (construct MethodNotAllowedException Opt.empty
              {| now := 0; captured := None |} ∅).1 in
  Opt.statusCode Opt.empty = None
  ∧ ¬ custom_status MethodNotAllowedException
  ∧ (getStatusMessage r = "Unknown Error" ↔ statusCode r = 405 ∨ statusCode r = 504).
Proof.
  intros r.
  assert (Hcustom : ¬ custom_status MethodNotAllowedException) by (intros []).
  split; [reflexivity|]. split; [exact Hcustom|].
  exact (getStatusMessage_of_variants MethodNotAllowedException Opt.empty
           {| now := 0; captured := None |} ∅ eq_refl Hcustom).
Defined.

(** ** The methods, continued *)

(** X11: the payload of [toResponse] has a request id exactly when the
    record has one that is not the empty string; so [setRequestId] shows in
    the payload, unless it is given the empty string. *)
Theorem toResponse_requestId (NODE_ENV : option string) (r : BaseException) :
  (∀ id, Response.requestId (toResponse NODE_ENV r) = Some id
         ↔ requestId r = Some id ∧ id ≠ "")
  ∧ (∀ id, id ≠ "" →
           Response.requestId (toResponse NODE_ENV (setRequestId id r)) = Some id)
  ∧ Response.requestId (toResponse NODE_ENV (setRequestId "" r)) = None.
Proof.
  assert (Hgen : ∀ r' id, Response.requestId (toResponse NODE_ENV r') = Some id
                          ↔ requestId r' = Some id ∧ id ≠ "").
  { intros r' id. unfold toResponse, truthy_string. simpl.
    destruct (requestId r') as [s|]; simpl; [|by split; [|intros []]].
    destruct (String.eqb_spec s "") as [->|Hne]; simpl.
    - split; [done|]. by intros [[= <-] ?].
    - split; [by intros [= <-]|by intros []]. }
  split; [apply Hgen|]. split; [|done].
  intros id Hne. by apply Hgen.
Qed.

Lemma toResponse_requestId_witness :
  let r := sample NotFoundException Opt.empty in
  "req-123" ≠ ""
  ∧ Response.requestId (toResponse None (setRequestId "req-123" r)) = Some "req-123".
Proof.
  intros r.
  assert (Hne : "req-123" ≠ "") by discriminate.
  split; [exact Hne|].
  exact (proj1 (proj2 (toResponse_requestId None r)) "req-123" Hne).
Defined.

(** X12: no method changes the name, the message, the status code, the
    code, the timestamp, the flags, the log level, the cause or the stack of
    a record, so none changes how the record is classified; the request id
    and the user id change only by their own setter. *)
Theorem methods_keep_the_readonly_fields (m : Method) (r : BaseException) (h : Heap) :
  let r' := (call m r h).1 in
  (name r' = name r ∧ message r' = message r ∧ statusCode r' = statusCode r
   ∧ code r' = code r ∧ timestamp r' = timestamp r
   ∧ isOperational r' = isOperational r ∧ retryable r' = retryable r
   ∧ logLevel r' = logLevel r ∧ cause r' = cause r ∧ stack r' = stack r)
  ∧ (isClientError r' = isClientError r ∧ isServerError r' = isServerError r
     ∧ isRetryableError (Modeled r') = isRetryableError (Modeled r)
     ∧ isOperationalError (Modeled r') = isOperationalError (Modeled r)
     ∧ ∀ level, shouldLogError (Modeled r') level = shouldLogError (Modeled r) level)
  ∧ (requestId r' ≠ requestId r → ∃ id, m = Call_setRequestId id)
  ∧ (userId r' ≠ userId r → ∃ id, m = Call_setUserId id).
Proof. destruct m; simpl; repeat split; try done; eauto. Qed.

Section Details.
Implicit Types (r : BaseException) (h : Heap) (key : string) (value : JsVal).

Lemma write_twice key value value' (o : JsObject) :
  write key value' (write key value o) = write key value' o.
Proof.
  unfold write.
  destruct (decide (key = "__proto__" ∧ o !! "__proto__" = None)) as [Hsetter|Hown].
  - by rewrite !(bool_decide_eq_true_2 _ Hsetter).
  - rewrite !(bool_decide_eq_false_2 _ Hown). rewrite bool_decide_eq_false_2.
    + by rewrite insert_insert_eq.
    + intros [-> Hnone]. rewrite lookup_insert_eq in Hnone. done.
Qed.

Lemma write_swap key key' value value' (o : JsObject) :
  key ≠ key' →
  write key value (write key' value' o) = write key' value' (write key value o).
Proof.
  intros Hkeys. unfold write.
  destruct (decide (key = "__proto__")) as [->|Hkey];
    destruct (decide (key' = "__proto__")) as [->|Hkey']; [done|..].
  - assert (Hordinary : ∀ o' : JsObject,
               bool_decide (key' = "__proto__" ∧ o' !! "__proto__" = None) = false)
      by (intros o'; apply bool_decide_eq_false_2; by intros [? _]).
    rewrite !Hordinary, lookup_insert_ne by done.
    case_bool_decide; [done|]. by apply insert_insert_ne.
  - assert (Hordinary : ∀ o' : JsObject,
               bool_decide (key = "__proto__" ∧ o' !! "__proto__" = None) = false)
      by (intros o'; apply bool_decide_eq_false_2; by intros [? _]).
    rewrite !Hordinary, lookup_insert_ne by done.
    case_bool_decide; [done|]. by apply insert_insert_ne.
  - assert (Hordinary : ∀ (k : string) (o' : JsObject), k ≠ "__proto__" →
               bool_decide (k = "__proto__" ∧ o' !! "__proto__" = None) = false)
      by (intros k o' Hk; apply bool_decide_eq_false_2; by intros [? _]).
    rewrite !Hordinary by done. by apply insert_insert_ne.
Qed.

Lemma set_prop_twice (l : loc) key value value' h :
  set_prop l key value' (set_prop l key value h) = set_prop l key value' h.
Proof.
  unfold set_prop. apply map_eq. intros l'.
  destruct (decide (l' = l)) as [->|Hne].
  - rewrite !lookup_alter_eq. destruct (h !! l) as [o|]; simpl; [|done].
    by rewrite write_twice.
  - by rewrite !lookup_alter_ne.
Qed.

Lemma set_prop_swap (l : loc) key key' value value' h :
  key ≠ key' →
  set_prop l key value (set_prop l key' value' h)
  = set_prop l key' value' (set_prop l key value h).
Proof.
  intros Hkeys. unfold set_prop. apply map_eq. intros l'.
  destruct (decide (l' = l)) as [->|Hne].
  - rewrite !lookup_alter_eq. destruct (h !! l) as [o|]; simpl; [|done].
    by rewrite write_swap.
  - by rewrite !lookup_alter_ne.
Qed.

Lemma set_prop_read (l : loc) key value h :
  key ≠ "__proto__" →
  is_Some (h !! l) →
  get_prop (deref (set_prop l key value h) l) key = value.
Proof.
  intros Hkey [o Ho]. unfold get_prop, deref. rewrite set_prop_lookup, Ho by done.
  simpl. by rewrite lookup_insert_eq.
Qed.

Lemma set_prop_read_other (l : loc) key key' value h :
  key' ≠ key →
  get_prop (deref (set_prop l key value h) l) key'
  = get_prop (deref h l) key'.
Proof.
  intros Hne. unfold get_prop, deref, set_prop. rewrite lookup_alter_eq.
  destruct (h !! l) as [o|]; simpl; [|done].
  unfold write. case_bool_decide; [done|]. by rewrite lookup_insert_ne.
Qed.
End Details.

(** X13: what [addDetail] writes under a key other than [__proto__] can be
    read back under that key, and the other keys read as before; a second
    [addDetail] on the same key makes the first one as if it had not been,
    and on different keys the order of two calls does not matter. *)
Theorem addDetail_read_back (r : BaseException) (key : string) (value : JsVal)
    (h : Heap) :
  key ≠ "__proto__" →
  let h1 := (addDetail key value r h).2 in
  (is_Some (h !! details r) → get_prop (deref h1 (details r)) key = value)
  ∧ (∀ key', key' ≠ key →
       get_prop (deref h1 (details r)) key' = get_prop (deref h (details r)) key')
  ∧ (∀ value', (addDetail key value' r h1).2 = (addDetail key value' r h).2)
  ∧ (∀ key' value', key ≠ key' →
       (addDetail key value r (addDetail key' value' r h).2).2
       = (addDetail key' value' r h1).2).
Proof.
  intros Hkey. simpl. split; [|split; [|split]].
  - by apply set_prop_read.
  - intros key' Hne. by apply set_prop_read_other.
  - intros value'. apply set_prop_twice.
  - intros key' value' Hne. by apply set_prop_swap.
Qed.

Lemma addDetail_read_back_witness :
  let built := construct NotFoundException Opt.empty {| now := 0; captured := None |} ∅ in
  "field" ≠ "__proto__"
  ∧ is_Some (built.2 !! details built.1)
  ∧ get_prop (deref (addDetail "field" (JStr "email") built.1 built.2).2
                (details built.1)) "field" = JStr "email".
Proof.
  intros built.
  assert (Hkey : "field" ≠ "__proto__") by discriminate.
  assert (Hsome : is_Some (built.2 !! details built.1)) by (by vm_compute; eexists).
  split; [exact Hkey|]. split; [exact Hsome|].
  exact (proj1 (addDetail_read_back built.1 "field" (JStr "email") built.2 Hkey) Hsome).
Defined.

(** X14: [toJSON] and [toResponse] hand out the record's own [details]
    object, not a copy: a detail added to the record afterwards, under a key
    other than [__proto__], is read through the object they returned
    before. *)
Theorem serialized_details_are_shared (NODE_ENV : option string)
    (r : BaseException) (key : string) (value : JsVal) (h : Heap) :
  key ≠ "__proto__" →
  is_Some (h !! details r) →
  let json := toJSON r in
  let response := toResponse NODE_ENV r in
  let h' := (addDetail key value r h).2 in
  Json.details json = details r
  ∧ Response.details response = Some (details r)
  ∧ get_prop (deref h' (Json.details json)) key = value
  ∧ ∃ l, Response.details response = Some l ∧ get_prop (deref h' l) key = value.
Proof.
  intros Hkey Hsome json response h'. subst json response h'. simpl.
  rewrite orb_true_r. split; [done|]. split; [done|]. split.
  - by apply set_prop_read.
  - exists (details r). split; [done|]. by apply set_prop_read.
Qed.

Lemma serialized_details_are_shared_witness :
  let built := construct NotFoundException Opt.empty {| now := 0; captured := None |} ∅ in
  "k" ≠ "__proto__"
  ∧ is_Some (built.2 !! details built.1)
  ∧ get_prop (deref (addDetail "k" (JNum 1) built.1 built.2).2
                (Json.details (toJSON built.1))) "k" = JNum 1.
Proof.
  intros built.
  assert (Hkey : "k" ≠ "__proto__") by discriminate.
  assert (Hsome : is_Some (built.2 !! details built.1)) by (by vm_compute; eexists).
  split; [exact Hkey|]. split; [exact Hsome|].
  exact (proj1 (proj2 (proj2
           (serialized_details_are_shared None built.1 "k" (JNum 1) built.2 Hkey Hsome)))).
Defined.

(** ** The utilities, continued *)

(** X15: an exception of the library is operational as its flag says; any
    other error is operational exactly when none of [TypeError],
    [ReferenceError], [SyntaxError] occurs in its stack, so always when it
    has no stack, whatever its name and message. *)
Theorem isOperationalError_spec :
  (∀ r : BaseException, isOperationalError (Modeled r) = isOperational r)
  ∧ (∀ e : Foreign.t,
       isOperationalError (Foreign e) = true
       ↔ ¬ occurs_in "TypeError" (Foreign.stack e)
         ∧ ¬ occurs_in "ReferenceError" (Foreign.stack e)
         ∧ ¬ occurs_in "SyntaxError" (Foreign.stack e))
  ∧ (∀ e : Foreign.t, Foreign.stack e = None → isOperationalError (Foreign e) = true).
Proof.
  split; [done|]. split.
  - intros e. unfold isOperationalError.
    rewrite !andb_true_iff, !negb_true_iff, <- !not_true_iff_false, !opt_includes_spec.
    tauto.
  - intros e Hstack. unfold isOperationalError. by rewrite Hstack.
Qed.

(** X16: raising the threshold of [shouldLogError] never silences an
    exception of the library, and at [debug] all of them are logged; an
    error of somebody else is logged at [error] and at no other threshold. *)
Theorem shouldLogError_thresholds :
  (∀ (r : BaseException) (low high : LogLevel),
     logLevels low ≤ logLevels high →
     shouldLogError (Modeled r) low = true → shouldLogError (Modeled r) high = true)
  ∧ (∀ r : BaseException, shouldLogError (Modeled r) LogDebug = true)
  ∧ (∀ (e : Foreign.t) (level : LogLevel),
       shouldLogError (Foreign e) level = true ↔ level = LogError).
Proof.
  split; [|split].
  - intros r low high Hle. simpl. rewrite !Z.leb_le. lia.
  - intros r. simpl. apply Z.leb_le. destruct (logLevel r); simpl; lia.
  - intros e level. simpl. apply bool_decide_eq_true.
Qed.

Lemma shouldLogError_thresholds_witness :
  let r := sample NotFoundException Opt.empty in
  logLevels LogError ≤ logLevels LogWarn
  ∧ shouldLogError (Modeled r) LogError = true
  ∧ shouldLogError (Modeled r) LogWarn = true.
Proof.
  intros r.
  assert (Hle : logLevels LogError ≤ logLevels LogWarn) by (simpl; lia).
  assert (Hlow : shouldLogError (Modeled r) LogError = true) by reflexivity.
  split; [exact Hle|]. split; [exact Hlow|].
  exact (proj1 shouldLogError_thresholds r LogError LogWarn Hle Hlow).
Defined.

Section Validation.
Implicit Types (obj : loc) (fields : list string) (env : Ambient) (h : Heap).

(** The call returns exactly when the filter finds nothing. *)
Lemma validateRequiredFields_returns obj fields env h :
  (validateRequiredFields obj fields env h).1 = Return tt
  ↔ ∀ field, In field fields → is_missing (deref h obj) field = false.
Proof.
  unfold validateRequiredFields.
  destruct (List.filter (is_missing (deref h obj)) fields) as [|f rest] eqn:Hf; simpl.
  - split; [|done]. intros _ field Hin.
    destruct (is_missing (deref h obj) field) eqn:Hm; [|done].
    assert (In field (List.filter (is_missing (deref h obj)) fields)) as Hin'
      by (by apply filter_In).
    by rewrite Hf in Hin'.
  - split; [done|]. intros Hall.
    assert (In f (List.filter (is_missing (deref h obj)) fields)) as Hin
      by (rewrite Hf; by left).
    apply filter_In in Hin as [Hin Hm]. rewrite (Hall f Hin) in Hm. done.
Qed.

Lemma filled_not_missing (o : JsObject) (field : string) (v : JsVal) :
  o !! field = Some v → filled v → is_missing o field = false.
Proof.
  intros Hv Hfilled. unfold is_missing, get_prop. rewrite Hv. simpl.
  destruct v; simpl in *; try done.
  rewrite bool_decide_eq_false_2; [done|congruence].
Qed.
End Validation.

(** X17: [validateRequiredFields] returns when every required field holds
    a number, a boolean, an object or a string that is not empty: [0] and
    [false] count as given. *)
Theorem validateRequiredFields_accepts_falsy (obj : loc) (requiredFields : list string)
    (env : Ambient) (h : Heap) :
  (∀ field, field ∈ requiredFields →
            ∃ v, deref h obj !! field = Some v ∧ filled v) →
  validateRequiredFields obj requiredFields env h = (Return tt, h).
Proof.
  intros Hall.
  assert (Hret : (validateRequiredFields obj requiredFields env h).1 = Return tt).
  { apply validateRequiredFields_returns. intros field Hin.
    destruct (Hall field) as (v & Hv & Hfilled); [by apply list_elem_of_In|].
    by apply (filled_not_missing _ _ v). }
  unfold validateRequiredFields in *.
  by destruct (Z.of_nat _ >? 0).
Qed.

Lemma validateRequiredFields_accepts_falsy_witness :
  let h : Heap := {[ 1%positive := {[ "age" := JNum 0; "active" := JBool false ]} ]} in
  let env := {| now := 0; captured := None |} in
  (∀ field, field ∈ ["age"; "active"] →
            ∃ v, deref h 1%positive !! field = Some v ∧ filled v)
  ∧ validateRequiredFields 1%positive ["age"; "active"] env h = (Return tt, h).
Proof.
  intros h env.
  assert (Hall : ∀ field, field ∈ ["age"; "active"] →
                          ∃ v, deref h 1%positive !! field = Some v ∧ filled v).
  { intros field Hin.
    apply elem_of_cons in Hin as [->|Hin]; [by exists (JNum 0)|].
    apply elem_of_cons in Hin as [->|Hin]; [by exists (JBool false)|].
    by apply elem_of_nil in Hin. }
  split; [exact Hall|].
  exact (validateRequiredFields_accepts_falsy 1%positive ["age"; "active"] env h Hall).
Defined.

(** X18: whether [validateRequiredFields] returns depends on the set of
    required fields only: it returns for two lists put together exactly
    when it returns for each, for the empty list always, and the order and
    the repetitions in the list do not matter. *)
Theorem validateRequiredFields_composes (obj : loc) (env : Ambient) (h : Heap) :
  (∀ fields1 fields2,
     (validateRequiredFields obj (fields1 ++ fields2) env h).1 = Return tt
     ↔ (validateRequiredFields obj fields1 env h).1 = Return tt
       ∧ (validateRequiredFields obj fields2 env h).1 = Return tt)
  ∧ (validateRequiredFields obj [] env h).1 = Return tt
  ∧ (∀ fields1 fields2,
       (∀ field, In field fields1 ↔ In field fields2) →
       (validateRequiredFields obj fields1 env h).1 = Return tt
       ↔ (validateRequiredFields obj fields2 env h).1 = Return tt).
Proof.
  split; [|split].
  - intros fields1 fields2. rewrite !validateRequiredFields_returns. split.
    + intros Hall. split; intros field Hin; apply Hall, in_or_app; auto.
    + intros [H1 H2] field [Hin|Hin]%in_app_or; auto.
  - done.
  - intros fields1 fields2 Hsame. rewrite !validateRequiredFields_returns.
    split; intros Hall field Hin; apply Hall, Hsame, Hin.
Qed.

(** X19: the function that [withErrorHandling] returns resolves exactly
    when the wrapped function does, with the same value and without running
    the handler; when the wrapped function is rejected it throws, and what
    it throws is the error of the wrapped function unless the handler
    throws something itself. *)
Theorem withErrorHandling_never_swallows {St T : Type}
    (fn : St → @Outcome T * St)
    (handler : option (ErrorValue → St → option ErrorValue * St)) (s : St) :
  let wrapped := withErrorHandling fn handler s in
  (∀ v, wrapped.1 = Return v ↔ (fn s).1 = Resolved v)
  ∧ (∀ v, (fn s).1 = Resolved v → wrapped = (Return v, (fn s).2))
  ∧ (∀ e, (fn s).1 = Rejected e →
       match handler with
       | None => wrapped = (Throw e, (fn s).2)
       | Some errorHandler =>
           wrapped = (Throw (default e (errorHandler e (fn s).2).1),
                      (errorHandler e (fn s).2).2)
       end).
Proof.
  unfold withErrorHandling.
  destruct (fn s) as [[v0|e0] s1]; simpl.
  - repeat split; try done.
    + by intros [= ->].
    + by intros [= ->].
    + by intros v [= ->].
  - repeat split; try done.
    + destruct handler as [hd|]; [destruct (hd e0 s1) as [[?|] ?]|]; done.
    + intros e [= <-]. destruct handler as [hd|]; [|done].
      by destruct (hd e0 s1) as [[?|] ?].
Qed.

(** ** The error handler of the middleware *)

Lemma enrich_fields (req : Request.t) (e : BaseException) (h : Heap) :
  let e' := (enrich req e h).1 in
  name e' = name e ∧ message e' = message e ∧ statusCode e' = statusCode e
  ∧ code e' = code e ∧ details e' = details e ∧ context e' = context e
  ∧ logLevel e' = logLevel e ∧ stack e' = stack e
  ∧ requestId e' = Request.requestId req.
Proof.
  unfold enrich. simpl.
  destruct (Request.userId req) as [id|]; [destruct (String.eqb id "")|]; done.
Qed.

Lemma enrich_heap (req : Request.t) (e : BaseException) (h : Heap) :
  (enrich req e h).2
  = set_prop (context e) "userAgent" (str_or_undefined (Request.userAgent req))
      (set_prop (context e) "ip" (JStr (Request.ip req))
         (set_prop (context e) "method" (JStr (Request.method req))
            (set_prop (context e) "url" (JStr (Request.url req)) h))).
Proof.
  unfold enrich. simpl.
  destruct (Request.userId req) as [id|]; [destruct (String.eqb id "")|]; done.
Qed.

(** X20: the status that [errorHandler] sends is the [statusCode] of the
    body it sends: the record's for an exception of the library; for any
    other error its own [statusCode] when that is truthy and 500 when it is
    not (absent, [0], empty). *)
Theorem errorHandler_status_is_body_status (error : Caught) (req : Request.t)
    (NODE_ENV : option string) (h : Heap) :
  let handled := errorHandler error req NODE_ENV h in
  Handled.status handled = ErrorResponse.statusCode (Handled.body handled)
  ∧ match error with
    | Own r => Handled.status handled = JNum (statusCode r)
    | Alien e =>
        truthy (Handled.status handled) = true
        ∧ (truthy (Plain.statusCode e) = true →
           Handled.status handled = Plain.statusCode e)
        ∧ (truthy (Plain.statusCode e) = false →
           Handled.status handled = JNum 500)
    end.
Proof.
  destruct error as [r|e]; unfold errorHandler.
  - pose proof (enrich_fields req r h) as (_ & _ & Hstatus & _).
    destruct (enrich req r h) as [r' h'] eqn:Henrich. simpl in *.
    by rewrite Hstatus.
  - simpl. unfold value_or.
    destruct (truthy (Plain.statusCode e)) eqn:Htruthy; done.
Qed.

(** X21: for an exception of the library, the request id in the body that
    [errorHandler] sends is the one of the request, when that is a string
    that is not empty, and there is none otherwise: the handler overwrites
    the request id that the exception had. *)
Theorem errorHandler_takes_the_request_id (r : BaseException) (req : Request.t)
    (NODE_ENV : option string) (h : Heap) :
  let handled := errorHandler (Own r) req NODE_ENV h in
  (∀ id, ErrorResponse.requestId (Handled.body handled) = Some id
         ↔ Request.requestId req = Some id ∧ id ≠ "")
  ∧ ∃ r', Handled.error handled = Own r'
          ∧ requestId r' = Request.requestId req.
Proof.
  unfold errorHandler.
  pose proof (enrich_fields req r h) as (_ & _ & _ & _ & _ & _ & _ & _ & Hid).
  destruct (enrich req r h) as [r' h'] eqn:Henrich. simpl in *. split.
  - intros id. unfold truthy_string. rewrite Hid.
    destruct (Request.requestId req) as [s|]; simpl; [|by split; [|intros []]].
    destruct (String.eqb_spec s "") as [->|Hne]; simpl.
    + split; [done|]. by intros [[= <-] ?].
    + split; [by intros [= <-]|by intros []].
  - by exists r'.
Qed.

(** X22: after [errorHandler] has run on an exception of the library, the
    context of the exception binds [url], [method], [ip] and [userAgent] to
    what the request says, whatever they were bound to before; its other
    keys and all other objects are as they were.  The handler writes its log
    line exactly when the log level of the exception is [error]. *)
Theorem errorHandler_enriches_the_context (r : BaseException) (req : Request.t)
    (NODE_ENV : option string) (h : Heap) :
  is_Some (h !! context r) →
  let handled := errorHandler (Own r) req NODE_ENV h in
  let o := deref (Handled.heap handled) (context r) in
  get_prop o "url" = JStr (Request.url req)
  ∧ get_prop o "method" = JStr (Request.method req)
  ∧ get_prop o "ip" = JStr (Request.ip req)
  ∧ get_prop o "userAgent" = str_or_undefined (Request.userAgent req)
  ∧ (∀ key, key ∉ request_keys → get_prop o key = get_prop (deref h (context r)) key)
  ∧ (∀ l, l ≠ context r → Handled.heap handled !! l = h !! l)
  ∧ (Handled.logged handled = true ↔ logLevel r = LogError).
Proof.
  intros [o0 Ho0]. unfold errorHandler.
  pose proof (enrich_fields req r h) as (_ & _ & _ & _ & _ & _ & Hlevel & _).
  pose proof (enrich_heap req r h) as Hheap.
  destruct (enrich req r h) as [r' h'] eqn:Henrich. simpl in *. subst h'.
  assert (Hobj : deref (set_prop (context r) "userAgent"
                          (str_or_undefined (Request.userAgent req))
                          (set_prop (context r) "ip" (JStr (Request.ip req))
                             (set_prop (context r) "method" (JStr (Request.method req))
                                (set_prop (context r) "url" (JStr (Request.url req)) h))))
                   (context r)
                 = <["userAgent" := str_or_undefined (Request.userAgent req)]>
                     (<["ip" := JStr (Request.ip req)]>
                        (<["method" := JStr (Request.method req)]>
                           (<["url" := JStr (Request.url req)]> o0)))).
  { unfold deref. by rewrite !set_prop_lookup, Ho0. }
  rewrite Hobj. unfold get_prop.
  split; [by simplify_map_eq|]. split; [by simplify_map_eq|].
  split; [by simplify_map_eq|]. split; [by simplify_map_eq|].
  split; [|split].
  - intros key Hkey. unfold request_keys in Hkey.
    rewrite !not_elem_of_cons in Hkey. destruct Hkey as (? & ? & ? & ? & _).
    unfold deref. rewrite Ho0. simpl. by rewrite !lookup_insert_ne.
  - intros l Hne. by rewrite !set_prop_lookup_ne.
  - rewrite Hlevel. rewrite Z.leb_le. destruct (logLevel r); simpl; split; (lia || done).
Qed.

Lemma errorHandler_enriches_the_context_witness :
  let built := construct NotFoundException Opt.empty {| now := 0; captured := None |} ∅ in
  let req := {| Request.url := "/users/1"; Request.method := "GET";
                Request.ip := "127.0.0.1"; Request.userAgent := None;
                Request.requestId := Some "req-1"; Request.userId := None |} in
  is_Some (built.2 !! context built.1)
  ∧ get_prop (deref (Handled.heap (errorHandler (Own built.1) req None built.2))
                (context built.1)) "url" = JStr "/users/1".
Proof.
  intros built req.
  assert (Hsome : is_Some (built.2 !! context built.1)) by (by vm_compute; eexists).
  split; [exact Hsome|].
  exact (proj1 (errorHandler_enriches_the_context built.1 req None built.2 Hsome)).
Defined.

(** X23: the body of [createErrorResponse] has a [stack] key exactly when
    the caller asks for it and [NODE_ENV] is [development]; the body that
    [errorHandler] sends has it exactly when [NODE_ENV] is [development]. *)
Theorem stack_only_in_development (error : Caught) (NODE_ENV : option string) :
  (∀ includeStack : bool,
     ErrorResponse.stack (createErrorResponse error includeStack NODE_ENV) ≠ None
     ↔ includeStack = true ∧ NODE_ENV = Some "development")
  ∧ (∀ (req : Request.t) (h : Heap),
       ErrorResponse.stack (Handled.body (errorHandler error req NODE_ENV h)) ≠ None
       ↔ NODE_ENV = Some "development").
Proof.
  assert (Hdev : is_development NODE_ENV = true ↔ NODE_ENV = Some "development")
    by apply bool_decide_eq_true.
  assert (Hgen : ∀ error' includeStack,
             ErrorResponse.stack (createErrorResponse error' includeStack NODE_ENV) ≠ None
             ↔ includeStack = true ∧ NODE_ENV = Some "development").
  { intros error' includeStack. rewrite <- Hdev.
    destruct error'; simpl;
      destruct includeStack, (is_development NODE_ENV); simpl; split; try done;
      by intros []. }
  split; [apply Hgen|].
  intros req h. unfold errorHandler.
  destruct error as [r|e].
  - destruct (enrich req r h) as [r' h'] eqn:Henrich. simpl.
    change (ErrorResponse.stack
              (createErrorResponse (Own r') (is_development NODE_ENV) NODE_ENV) ≠ None
            ↔ NODE_ENV = Some "development").
    rewrite Hgen, Hdev. tauto.
  - simpl.
    change (ErrorResponse.stack
              (createErrorResponse (Alien e) (is_development NODE_ENV) NODE_ENV) ≠ None
            ↔ NODE_ENV = Some "development").
    rewrite Hgen, Hdev. tauto.
Qed.

(** ** Patterns and [validateEmail] *)

Section Patterns.
Implicit Types (r : Regex) (s : list ascii) (a : ascii).

Lemma matches_never_inv s : Matches Never s → False.
Proof. inversion 1. Qed.

Lemma matches_empty_inv s : Matches Empty s → s = [].
Proof. by inversion 1. Qed.

Lemma matches_class_inv (accepts : ascii → bool) s :
  Matches (Class accepts) s → ∃ a, s = [a] ∧ accepts a = true.
Proof. inversion 1; subst; eauto. Qed.

Lemma matches_then_inv r1 r2 s :
  Matches (Then r1 r2) s → ∃ s1 s2, s = s1 ++ s2 ∧ Matches r1 s1 ∧ Matches r2 s2.
Proof. inversion 1; subst; eauto. Qed.

Lemma matches_or_inv r1 r2 s : Matches (Or r1 r2) s → Matches r1 s ∨ Matches r2 s.
Proof. inversion 1; subst; auto. Qed.

Lemma matches_then_cons r1 r2 a s1 s2 :
  Matches r1 (a :: s1) → Matches r2 s2 → Matches (Then r1 r2) (a :: s1 ++ s2).
Proof. intros H1 H2. change (Matches (Then r1 r2) ((a :: s1) ++ s2)). by constructor. Qed.

Lemma matches_then_nil r1 r2 s :
  Matches r1 [] → Matches r2 s → Matches (Then r1 r2) s.
Proof. intros H1 H2. change (Matches (Then r1 r2) ([] ++ s)). by constructor. Qed.

Lemma nullable_spec r : nullable r = true ↔ Matches r [].
Proof.
  split.
  - induction r as [| |accepts|r1 IH1 r2 IH2|r1 IH1 r2 IH2|r IH]; simpl; try done.
    + intros _. constructor.
    + intros [H1 H2]%andb_true_iff. apply matches_then_nil; auto.
    + intros [H1|H2]%orb_true_iff; [apply matches_or_l|apply matches_or_r]; auto.
    + intros _. constructor.
  - induction r as [| |accepts|r1 IH1 r2 IH2|r1 IH1 r2 IH2|r IH]; simpl; try done.
    + by intros ?%matches_never_inv.
    + by intros (a & ? & _)%matches_class_inv.
    + intros (s1 & s2 & Hs & H1 & H2)%matches_then_inv.
      symmetry in Hs. apply app_eq_nil in Hs as [-> ->]. by rewrite IH1, IH2.
    + intros [H|H]%matches_or_inv; [by rewrite IH1|rewrite IH2 by done; apply orb_true_r].
Qed.

Lemma matches_many_cons r a s :
  Matches (Many r) (a :: s) →
  ∃ s1 s2, s = s1 ++ s2 ∧ Matches r (a :: s1) ∧ Matches (Many r) s2.
Proof.
  intros Hm. remember (Many r) as r' eqn:Hr. remember (a :: s) as s' eqn:Hs.
  revert Hr Hs.
  induction Hm as [|accepts b Hb|r1 r2 s1 s2 H1 IH1 H2 IH2|r1 r2 s0 H IH
                  |r1 r2 s0 H IH|r0|r0 s1 s2 H1 IH1 H2 IH2]; intros Hr Hs; try done.
  simplify_eq. destruct s1 as [|b s1]; simpl in Hs.
  - by apply IH2.
  - simplify_eq. by exists s1, s2.
Qed.

Lemma derive_spec a r s : Matches (derive a r) s ↔ Matches r (a :: s).
Proof.
  revert s.
  induction r as [| |accepts|r1 IH1 r2 IH2|r1 IH1 r2 IH2|r IH]; intros s; simpl.
  - split; by intros ?%matches_never_inv.
  - split; [by intros ?%matches_never_inv|by intros ?%matches_empty_inv].
  - destruct (accepts a) eqn:Ha; split.
    + intros ->%matches_empty_inv. by constructor.
    + intros (b & [= <- ->] & _)%matches_class_inv. constructor.
    + by intros ?%matches_never_inv.
    + intros (b & [= <- ->] & Hb)%matches_class_inv. congruence.
  - assert (Hleft : ∀ s, Matches (Then (derive a r1) r2) s → Matches (Then r1 r2) (a :: s)).
    { intros s0 (s1 & s2 & -> & H1 & H2)%matches_then_inv.
      apply matches_then_cons; [by apply IH1|done]. }
    assert (Hback : ∀ s, Matches (Then r1 r2) (a :: s) →
                         Matches (Then (derive a r1) r2) s
                         ∨ (nullable r1 = true ∧ Matches (derive a r2) s)).
    { intros s0 (s1 & s2 & Heq & H1 & H2)%matches_then_inv.
      destruct s1 as [|b s1]; simpl in Heq.
      - right. split; [by apply nullable_spec|]. subst s2. by apply IH2.
      - simplify_eq. left. constructor; [by apply IH1|done]. }
    destruct (nullable r1) eqn:Hnull; split.
    + intros [H|H]%matches_or_inv; [by apply Hleft|].
      apply matches_then_nil; [by apply nullable_spec|by apply IH2].
    + intros [H|[_ H]]%Hback; [by apply matches_or_l|by apply matches_or_r].
    + apply Hleft.
    + intros [H|[? _]]%Hback; [done|congruence].
  - split.
    + intros [H|H]%matches_or_inv;
        [apply matches_or_l; by apply IH1|apply matches_or_r; by apply IH2].
    + intros [H|H]%matches_or_inv;
        [apply matches_or_l; by apply IH1|apply matches_or_r; by apply IH2].
  - split.
    + intros (s1 & s2 & -> & H1 & H2)%matches_then_inv.
      change (Matches (Many r) ((a :: s1) ++ s2)).
      constructor; [by apply IH|done].
    + intros (s1 & s2 & -> & H1 & H2)%matches_many_cons.
      constructor; [by apply IH|done].
Qed.

(** The test by derivatives decides the pattern. *)
Lemma test_spec r s : test r s = true ↔ Matches r s.
Proof.
  revert r. induction s as [|a s IH]; intros r; simpl.
  - apply nullable_spec.
  - by rewrite IH, derive_spec.
Qed.

Lemma matches_many_class (accepts : ascii → bool) s :
  Matches (Many (Class accepts)) s ↔ Forall (λ c, accepts c = true) s.
Proof.
  split.
  - induction s as [|a s IH]; [constructor|].
    intros (s1 & s2 & Hs & (b & Hb & Hacc)%matches_class_inv & H2)%matches_many_cons.
    injection Hb as <- ->. simpl in Hs. subst s2. constructor; [done|by apply IH].
  - induction 1 as [|c s Hc Hs IH]; [constructor|].
    change (Matches (Many (Class accepts)) ([c] ++ s)).
    constructor; [by constructor|done].
Qed.

Lemma matches_several_class (accepts : ascii → bool) s :
  Matches (Several (Class accepts)) s ↔ s ≠ [] ∧ Forall (λ c, accepts c = true) s.
Proof.
  unfold Several. split.
  - intros (s1 & s2 & -> & (b & -> & Hacc)%matches_class_inv & H2)%matches_then_inv.
    split; [done|]. constructor; [done|by apply matches_many_class].
  - intros [Hne Hall]. destruct Hall as [|c s Hc Hs]; [done|].
    change (Matches (Then (Class accepts) (Many (Class accepts))) ([c] ++ s)).
    constructor; [by constructor|by apply matches_many_class].
Qed.

Lemma matches_char (c : ascii) s : Matches (Class (Ascii.eqb c)) s ↔ s = [c].
Proof.
  split.
  - intros (b & -> & Hb)%matches_class_inv. by apply Ascii.eqb_eq in Hb as ->.
  - intros ->. constructor. apply Ascii.eqb_refl.
Qed.

Lemma not_space_nor_at_plain (c : ascii) : not_space_nor_at c = true ↔ plain c.
Proof.
  unfold not_space_nor_at, plain.
  rewrite andb_true_iff, !negb_true_iff, Ascii.eqb_neq. tauto.
Qed.

Lemma matches_address_part s :
  Matches (Several (Class not_space_nor_at)) s ↔ address_part s.
Proof.
  rewrite matches_several_class. unfold address_part.
  assert (Forall (λ c, not_space_nor_at c = true) s ↔ Forall plain s) as ->; [|done].
  rewrite !Forall_forall. split; intros Hall c Hc; by apply not_space_nor_at_plain, Hall.
Qed.
End Patterns.

(** X24: [validateEmail] accepts exactly the strings of the form
    [local@domain.tld] in which each of the three parts is not empty and has
    neither white space nor [@] in it (dots it may have, anywhere). *)
Theorem validateEmail_spec (email : string) :
  validateEmail email = true
  ↔ ∃ local domain tld : list ascii,
      list_ascii_of_string email = local ++ "@"%char :: domain ++ "."%char :: tld
      ∧ address_part local ∧ address_part domain ∧ address_part tld.
Proof.
  unfold validateEmail, emailRegex. rewrite test_spec. split.
  - intros (local & rest1 & Heq & Hlocal%matches_address_part
            & (at_ & rest2 & -> & ->%matches_char
               & (domain & rest3 & -> & Hdomain%matches_address_part
                  & (dot & tld & -> & ->%matches_char
                     & Htld%matches_address_part)%matches_then_inv
                 )%matches_then_inv)%matches_then_inv)%matches_then_inv.
    by exists local, domain, tld.
  - intros (local & domain & tld & -> & Hlocal & Hdomain & Htld).
    constructor; [by apply matches_address_part|].
    change (Matches (Then (Class (Ascii.eqb "@"%char))
                       (Then (Several (Class not_space_nor_at))
                          (Then (Class (Ascii.eqb "."%char))
                             (Several (Class not_space_nor_at)))))
              (["@"%char] ++ (domain ++ ["."%char] ++ tld))).
    constructor; [by apply matches_char|].
    constructor; [by apply matches_address_part|].
    constructor; [by apply matches_char|by apply matches_address_part].
Qed.

Example validateEmail_accepts :
  validateEmail "test@example.com" = true
  ∧ validateEmail "user.name+tag@domain.co.uk" = true
  ∧ validateEmail "a@..c" = true.
Proof. by vm_compute. Qed.

Example validateEmail_rejects :
  validateEmail "invalid-email" = false
  ∧ validateEmail "test@" = false
  ∧ validateEmail "@example.com" = false
  ∧ validateEmail "a b@example.com" = false
  ∧ validateEmail "a@b@example.com" = false
  ∧ validateEmail "" = false.
Proof. by vm_compute. Qed.

(** ** More on the variants and on the translating middleware *)

Lemma construct_own_details v options env h :
  Opt.details options = None →
  (construct v options env h).2 !! details (construct v options env h).1
  = Some (default ∅ (lit_details (variant_literal v))).
Proof.
  intros Hd.
  pose proof (construct_from_literal v options env h)
    as (_ & _ & _ & _ & _ & _ & _ & _ & _ & _ & Hdetails & _).
  rewrite Hd in Hdetails. apply Hdetails.
Qed.

Lemma construct_message v options env h :
  message (construct v options env h).1
  = resolved (Opt.message options) (lit_message (variant_literal v)) "An error occurred".
Proof. apply (construct_from_literal v options env h). Qed.

(** X25: the details that [BusinessRuleViolationException] is given are
    copied into the details of the record, beside the rule: every key of
    theirs is there with their value, [rule] too if they have it, and the
    name of the rule stands under [rule] only if they have no such key. *)
Theorem BusinessRuleViolationException_details (rule : string) (given : JsObject)
    (options : ExceptionOptions) (env : Ambient) (h : Heap) :
  Opt.details options = None →
  let built := construct (BusinessRuleViolationException rule (Some given)) options env h in
  let o := deref built.2 (details built.1) in
  (∀ key v, given !! key = Some v → o !! key = Some v)
  ∧ (given !! "rule" = None → o !! "rule" = Some (JStr rule))
  ∧ (∀ key, key ≠ "rule" → given !! key = None → o !! key = None).
Proof.
  intros Hd built o. subst built o. unfold deref.
  rewrite construct_own_details by done. simpl. unfold rule_details. simpl.
  split; [|split].
  - intros key v Hkey. by apply lookup_union_Some_l.
  - intros Hnone. rewrite lookup_union_r by done. apply lookup_singleton_eq.
  - intros key Hne Hnone. rewrite lookup_union_r by done. by apply lookup_singleton_ne.
Qed.

Lemma BusinessRuleViolationException_details_witness :
  let given : JsObject := {[ "rule" := JStr "other"; "limit" := JNum 3 ]} in
  let built := construct (BusinessRuleViolationException "max-items" (Some given))
                 Opt.empty {| now := 0; captured := None |} ∅ in
  Opt.details Opt.empty = None
  ∧ ∀ key v, given !! key = Some v → deref built.2 (details built.1) !! key = Some v.
Proof.
  intros given built. split; [reflexivity|].
  exact (proj1 (BusinessRuleViolationException_details "max-items" given Opt.empty
                  {| now := 0; captured := None |} ∅ eq_refl)).
Defined.

(** X26: [ThirdPartyAPIException] takes the status code it is given as its
    own, unless that is absent or [0], when it takes 503; the details keep
    what was given under [apiStatusCode], [0] and [undefined] too. *)
Theorem ThirdPartyAPIException_status (api endpoint : string) (given : option Z)
    (options : ExceptionOptions) (env : Ambient) (h : Heap) :
  Opt.statusCode options = None →
  Opt.details options = None →
  let built := construct (ThirdPartyAPIException api endpoint given) options env h in
  statusCode built.1
  = match given with
    | Some n => if decide (n = 0) then 503 else n
    | None => 503
    end
  ∧ get_prop (deref built.2 (details built.1)) "apiStatusCode" = num_or_undefined given.
Proof.
  intros Hs Hd built. subst built. split.
  - rewrite construct_statusCode, Hs. simpl.
    destruct given as [n|]; simpl; [|done].
    case_decide as Hn; [by subst|]. by apply Z.eqb_neq in Hn as ->.
  - unfold deref, get_prop. rewrite construct_own_details by done. simpl.
    by simplify_map_eq.
Qed.

Lemma ThirdPartyAPIException_status_witness :
  let built := construct (ThirdPartyAPIException "pay" "/charge" (Some 0)) Opt.empty
                 {| now := 0; captured := None |} ∅ in
  Opt.statusCode Opt.empty = None ∧ Opt.details Opt.empty = None
  ∧ statusCode built.1 = 503
  ∧ get_prop (deref built.2 (details built.1)) "apiStatusCode" = JNum 0.
Proof.
  intros built. split; [reflexivity|]. split; [reflexivity|].
  exact (ThirdPartyAPIException_status "pay" "/charge" (Some 0) Opt.empty
           {| now := 0; captured := None |} ∅ eq_refl eq_refl).
Defined.

(** X27: [corsErrorHandler] hands on, untouched, every error whose message
    does not have [CORS] in it; any other, an exception of the library too,
    it replaces by a plain error, so that [errorHandler] then answers 403
    with the message ['CORS policy violation'] and without code, details
    or request id.  [rateLimitErrorHandler] does the same with
    ['rate limit'], 429 and ['Too many requests']. *)
Theorem translators_replace_the_error (error : Caught) (env : Ambient)
    (req : Request.t) (NODE_ENV : option string) (h : Heap) :
  (¬ occurs_in "CORS" (message_of error) → corsErrorHandler error env = error)
  ∧ (occurs_in "CORS" (message_of error) →
     let handled := errorHandler (corsErrorHandler error env) req NODE_ENV h in
     Handled.status handled = JNum 403
     ∧ ErrorResponse.message (Handled.body handled) = "CORS policy violation"
     ∧ ErrorResponse.code (Handled.body handled) = None
     ∧ ErrorResponse.details (Handled.body handled) = None
     ∧ ErrorResponse.requestId (Handled.body handled) = None
     ∧ Handled.heap handled = h)
  ∧ (¬ occurs_in "rate limit" (message_of error) →
     rateLimitErrorHandler error env = error)
  ∧ (occurs_in "rate limit" (message_of error) →
     let handled := errorHandler (rateLimitErrorHandler error env) req NODE_ENV h in
     Handled.status handled = JNum 429
     ∧ ErrorResponse.message (Handled.body handled) = "Too many requests"
     ∧ ErrorResponse.code (Handled.body handled) = None
     ∧ ErrorResponse.details (Handled.body handled) = None
     ∧ ErrorResponse.requestId (Handled.body handled) = None
     ∧ Handled.heap handled = h).
Proof.
  unfold corsErrorHandler, rateLimitErrorHandler.
  split; [|split; [|split]].
  - rewrite <- opt_includes_spec. by destruct (opt_includes _ _).
  - intros Hin%opt_includes_spec. by rewrite Hin.
  - rewrite <- opt_includes_spec. by destruct (opt_includes _ _).
  - intros Hin%opt_includes_spec. by rewrite Hin.
Qed.

Lemma translators_replace_the_error_witness :
  let r := sample ForbiddenException
             {| Opt.message := Some (Some "CORS origin denied"); Opt.statusCode := None;
                Opt.code := None; Opt.details := None; Opt.cause := None;
                Opt.timestamp := None; Opt.requestId := None; Opt.userId := None;
                Opt.context := None; Opt.isOperational := None;
                Opt.retryable := None; Opt.logLevel := None |} in
  let env := {| now := 0; captured := None |} in
  let req := {| Request.url := "/"; Request.method := "GET"; Request.ip := "::1";
                Request.userAgent := None; Request.requestId := None;
                Request.userId := None |} in
  occurs_in "CORS" (message_of (Own r))
  ∧ Handled.status (errorHandler (corsErrorHandler (Own r) env) req None ∅) = JNum 403.
Proof.
  intros r env req.
  assert (Hin : occurs_in "CORS" (message_of (Own r))).
  { exists "CORS origin denied", "", " origin denied". split; reflexivity. }
  split; [exact Hin|].
  exact (proj1 (proj1 (proj2 (translators_replace_the_error (Own r) env req None ∅)) Hin)).
Defined.
